(** * sms-masivo: the Twilio SMS backend of [main.go]

    A shallow embedding of the single-send operation [sendSMS], of the
    bounded-concurrency bulk dispatcher [sendBulkSMS] and of the two HTTP
    handlers in front of them.

    - The Twilio client is an external collaborator: its [CreateMessage]
      is a transition on an abstract provider [World], and every call is
      appended to a call log so that "how many provider calls" is a
      statement about a list.
    - [sendBulkSMS] starts one goroutine per recipient.  Its executions
      are the interleavings of the atomic actions of the main goroutine
      and of the workers (channel send and receive, mutex lock and unlock,
      WaitGroup Add/Done/Wait, the append under the mutex, the provider
      call and its reply).  The program is free of data races (the two
      slices are only touched under [mu], the result is read after
      [wg.Wait]), so the interleaving semantics is the one Go gives it.
      A schedule (the list of goroutines picked by the runtime) drives an
      executable [step] function.  The provider answers every call: the
      code has no timeout, and a call that never returned would keep its
      worker, and with it the caller, waiting for ever.
    - [encoding/json] is not part of the repository: request bodies are
      the JSON value the decoder's scanner reads off the stream, and the
      reflection-driven store into the request struct is modelled for the
      two struct types the handlers use. *)

From Stdlib Require Import String Ascii List Bool Arith Lia Permutation.
Import ListNotations.
Open Scope string_scope.
Open Scope list_scope.

Set Implicit Arguments.
Set Warnings "-register-all,-notation-for-abbreviation".

(** ** Go values *)

(** Go's [error] interface: a type with an [Error() string] method. *)
Class GoError (E : Type) := Error : E -> string.

(** The errors this program creates itself all come from [fmt.Errorf]
    with a [%v] verb (never [%w]): a value of [*fmt.wrapError] is never
    built, only an opaque text.  [None] is Go's [nil] error. *)
Definition error := option string.

#[global] Instance error_text : GoError string := fun s => s.

(** [fmt.Sprintf(prefix + "%v", err)] for a non-nil [err]. *)
Definition Sprintf_v {E} `{GoError E} (prefix : string) (err : E) : string :=
  (prefix ++ Error err)%string.

(** [fmt.Errorf(prefix + "%v", err)]. *)
Definition Errorf_v {E} `{GoError E} (prefix : string) (err : E) : error :=
  Some (Sprintf_v prefix err).

(** ** Configuration and data model (main.go, lines 16-37) *)

Record TwilioConfig := {
  AccountSID : string;
  AuthToken : string;
  FromPhone : string
}.

Record SMSRequest := {
  To : list string;
  Message : string
}.

Record SMSResponse := {
  Sent : list string;
  Failed : list string;
  Total : nat
}.

(** ** The Twilio SDK surface the program uses *)

Module openapi.

(** [openapi.CreateMessageParams]: every field is a pointer that the
    setters fill in. *)
Record CreateMessageParams := {
  To : option string;
  From : option string;
  Body : option string
}.

Definition empty : CreateMessageParams :=
  {| To := None; From := None; Body := None |}.

Definition SetTo (v : string) (p : CreateMessageParams) :=
  {| To := Some v; From := From p; Body := Body p |}.

Definition SetFrom (v : string) (p : CreateMessageParams) :=
  {| To := To p; From := Some v; Body := Body p |}.

Definition SetBody (v : string) (p : CreateMessageParams) :=
  {| To := To p; From := From p; Body := Some v |}.

End openapi.

(** What [log.Printf] wrote, without the time stamp of the logger. *)
Inductive LogEntry :=
| LogSendError (to : string) (err : string)   (* "❌ Error enviando a %s: %v" *)
| LogSendOk (to : string).                    (* "✅ SMS enviado a %s" *)

(** ** [encoding/json]: storing a scanned value into a request struct *)

Module json.

(** A JSON value as the decoder's scanner reads it; strings are
    already unquoted. *)
Inductive Value :=
| JNull
| JBool (b : bool)
| JNumber (literal : string)
| JString (s : string)
| JArray (elems : list Value)
| JObject (members : list (string * Value)).

Definition upper (c : ascii) : ascii :=
  let n := nat_of_ascii c in
  if ((97 <=? n) && (n <=? 122))%nat then ascii_of_nat (n - 32) else c.

Definition is_byte (c : ascii) (n : nat) : bool := (nat_of_ascii c =? n)%nat.

(** [foldName]: ASCII letters are upper-cased and every other rune is
    replaced by the smallest rune of its case-folding orbit.  The only
    orbits that reach ASCII are those of U+017F (bytes C5 BF, folds to
    S) and U+212A (bytes E2 84 AA, folds to K); all other multi-byte
    runes fold to multi-byte runes and are kept as they are, which
    decides the same matches against the ASCII field names used here. *)
Fixpoint foldName (s : string) : string :=
  match s with
  | EmptyString => EmptyString
  | String c1 s1 =>
      match s1 with
      | EmptyString => String (upper c1) EmptyString
      | String c2 s2 =>
          if is_byte c1 197 && is_byte c2 191
          then String "S" (foldName s2)
          else
            match s2 with
            | EmptyString => String (upper c1) (foldName s1)
            | String c3 s3 =>
                if is_byte c1 226 && is_byte c2 132 && is_byte c3 170
                then String "K" (foldName s3)
                else String (upper c1) (foldName s1)
            end
      end
  end.

(** Does object key [key] select the struct field tagged [name]?
    An exact match is tried first, then a match of the folded names. *)
Definition selects (key name : string) : bool :=
  (key =? name)%string || (foldName key =? foldName name)%string.

(** Store into a Go [string]: [null] leaves the target as it is, any
    other non-string is an [UnmarshalTypeError] ([None]). *)
Definition store_string (v : Value) (old : string) : option string :=
  match v with
  | JString s => Some s
  | JNull => Some old
  | _ => None
  end.

(** A [[]string] target: [cells] are the cells of its backing array
    that have been written (also those past [len]). *)
Record StringSlice := { cells : list string; len : nat }.

Definition nil_slice : StringSlice := {| cells := []; len := 0 |}.

Definition elements (sl : StringSlice) : list string :=
  firstn (len sl) (cells sl).

(** Elements are stored into the existing cells, one after the other;
    cells past the last element keep their content. *)
Fixpoint store_elems (elems : list Value) (old : list string)
  : option (list string) :=
  match elems with
  | [] => Some old
  | v :: elems' =>
      match store_string v (hd "" old), store_elems elems' (tl old) with
      | Some c, Some rest => Some (c :: rest)
      | _, _ => None
      end
  end.

(** Store into a [[]string]: [null] sets the slice to nil, an empty
    array sets it to a fresh empty slice, a non-empty array is stored
    element-wise and the length is set to the number of elements. *)
Definition store_slice (v : Value) (old : StringSlice) : option StringSlice :=
  match v with
  | JNull => Some nil_slice
  | JArray [] => Some nil_slice
  | JArray elems =>
      match store_elems elems (cells old) with
      | Some cs => Some {| cells := cs; len := length elems |}
      | None => None
      end
  | _ => None
  end.

(** The anonymous struct of [sendSMSHandler] (lines 89-92). *)
Record SingleRequest := { To : string; Message : string }.

Definition store_single_member (r : option SingleRequest) (kv : string * Value)
  : option SingleRequest :=
  match r with
  | None => None
  | Some r =>
      let (key, v) := kv in
      if selects key "to" then
        match store_string v (To r) with
        | Some t => Some {| To := t; Message := Message r |}
        | None => None
        end
      else if selects key "message" then
        match store_string v (Message r) with
        | Some m => Some {| To := To r; Message := m |}
        | None => None
        end
      else Some r
  end.

(** [Decode(&req)] for the struct of [sendSMSHandler], [req] zeroed.
    [None] is a non-nil error. *)
Definition decode_single (body : option Value) : option SingleRequest :=
  match body with
  | Some (JObject members) =>
      fold_left store_single_member members (Some {| To := ""; Message := "" |})
  | Some JNull => Some {| To := ""; Message := "" |}
  | _ => None
  end.

(** [SMSRequest] while it is being filled in. *)
Record BulkTarget := { to_slice : StringSlice; message : string }.

Definition store_bulk_member (r : option BulkTarget) (kv : string * Value)
  : option BulkTarget :=
  match r with
  | None => None
  | Some r =>
      let (key, v) := kv in
      if selects key "to" then
        match store_slice v (to_slice r) with
        | Some sl => Some {| to_slice := sl; message := message r |}
        | None => None
        end
      else if selects key "message" then
        match store_string v (message r) with
        | Some m => Some {| to_slice := to_slice r; message := m |}
        | None => None
        end
      else Some r
  end.

Definition zero_bulk : BulkTarget := {| to_slice := nil_slice; message := "" |}.

Definition decode_bulk_target (body : option Value) : option BulkTarget :=
  match body with
  | Some (JObject members) => fold_left store_bulk_member members (Some zero_bulk)
  | Some JNull => Some zero_bulk
  | _ => None
  end.

End json.

(** [Decode(&req)] for [SMSRequest] (line 121), [req] zeroed.  A nil and
    an empty slice are both the empty list: [len] and [range] do not
    tell them apart. *)
Definition decode_bulk (body : option json.Value) : option SMSRequest :=
  match json.decode_bulk_target body with
  | Some t => Some {| To := json.elements (json.to_slice t); Message := json.message t |}
  | None => None
  end.

(** ** [net/http] *)

Record Request := {
  Method : string;
  Body : option json.Value   (* [None]: the stream does not start with a JSON value *)
}.

Inductive Payload :=
| Text (s : string)
| JSONMap (members : list (string * string))   (* a [map[string]string], keys sorted *)
| JSONResponse (r : SMSResponse).

Record Reply := {
  StatusCode : nat;
  ContentType : string;
  Written : Payload
}.

Definition MethodPost : string := "POST".
Definition StatusOK : nat := 200.
Definition StatusBadRequest : nat := 400.
Definition StatusMethodNotAllowed : nat := 405.
Definition StatusInternalServerError : nat := 500.

Definition newline : string := String (ascii_of_nat 10) EmptyString.

(** [http.Error(w, msg, code)] *)
Definition http_Error (msg : string) (code : nat) : Reply :=
  {| StatusCode := code;
     ContentType := "text/plain; charset=utf-8";
     Written := Text (msg ++ newline)%string |}.

(** [w.Header().Set("Content-Type", "application/json")] followed by
    [json.NewEncoder(w).Encode(v)]: the first write sends status 200. *)
Definition write_json (v : Payload) : Reply :=
  {| StatusCode := StatusOK; ContentType := "application/json"; Written := v |}.

(** The bytes of a request body, as far as the handlers can tell them
    apart: the JSON value that its first bytes spell, if they spell
    one, and the bytes after that value. *)
Record Stream := {
  leading : option json.Value;
  trailing : string
}.

(** White space of JSON: space, tab, line feed, carriage return. *)
Definition is_space (c : ascii) : bool :=
  let n := nat_of_ascii c in
  ((n =? 32) || (n =? 9) || (n =? 10) || (n =? 13))%nat.

Fixpoint all_space (s : string) : bool :=
  match s with
  | EmptyString => true
  | String c s' => is_space c && all_space s'
  end.

(** A JSON text is one value with nothing but white space after it:
    what [json.Valid] accepts. *)
Definition Valid (b : Stream) : bool :=
  match leading b with
  | Some _ => all_space (trailing b)
  | None => false
  end.

(** The request a handler gets for these bytes.  [json.NewDecoder(r.Body)]
    followed by one [Decode] (lines 94 and 121) reads the first value
    from the stream; the bytes after it are left in the stream and
    nothing reads them. *)
Definition received (method : string) (b : Stream) : Request :=
  {| Method := method; Body := leading b |}.

Section Provider.

(** The provider: its state, the errors it reports, and the one
    operation "create outbound message". *)
Variable World : Type.
Variable ProviderError : Type.
Context {ProviderError_error : GoError ProviderError}.
Variable CreateMessage :
  openapi.CreateMessageParams -> World -> option ProviderError * World.

(** The package-level [twilioConfig], set once in [main]. *)
Variable twilioConfig : TwilioConfig.

(** Everything outside the process that the code acts on. *)
Record Env := {
  world : World;
  calls : list openapi.CreateMessageParams;  (* provider calls, oldest first *)
  logs : list LogEntry
}.

(** lines 135-138 of [sendSMS] *)
Definition sendSMS_params (to message : string) : openapi.CreateMessageParams :=
  openapi.SetBody message
    (openapi.SetFrom (FromPhone twilioConfig)
       (openapi.SetTo to openapi.empty)).

(** The call leaves the process: it is logged as issued. *)
Definition issue (p : openapi.CreateMessageParams) (e : Env) : Env :=
  {| world := world e; calls := calls e ++ [p]; logs := logs e |}.

(** The provider answers. *)
Definition reply (p : openapi.CreateMessageParams) (e : Env)
  : option ProviderError * Env :=
  let (r, w) := CreateMessage p (world e) in
  (r, {| world := w; calls := calls e; logs := logs e |}).

(** lines 141-145 of [sendSMS] *)
Definition sendSMS_result (r : option ProviderError) : error :=
  match r with
  | Some err => Errorf_v "error al enviar SMS: " err
  | None => None
  end.

(** [sendSMS] (main.go, lines 134-146). *)
Definition sendSMS (to message : string) (e : Env) : error * Env :=
  let params := sendSMS_params to message in
  let (r, e') := reply params (issue params e) in
  (sendSMS_result r, e').

(** *** The bulk dispatcher [sendBulkSMS] (lines 148-185) *)

(** Capacity of [semaphore := make(chan struct{}, 10)]. *)
Definition capacity : nat := 10.

(** The goroutines of one call: the caller and the workers, numbered
    in the order of the [go] statements. *)
Inductive tid :=
| Main
| Worker (i : nat).

(** Control points of the worker body (lines 164-180).  [err] is the
    local variable of line 169. *)
Inductive WorkerPc :=
| AtAcquire                                    (* 166  semaphore <- struct{}{} *)
| AtSend                                       (* 169  sendSMS: params built, call issued *)
| InFlight (params : openapi.CreateMessageParams) (* 140  waiting for the provider *)
| AtLock (err : error)                         (* 171  mu.Lock() *)
| AtRecord (err : error)                       (* 172-178  append and log *)
| AtUnlock (err : error)                       (* 179  mu.Unlock() *)
| AtRelease (err : error)                      (* 167  deferred <-semaphore *)
| AtDone (err : error)                         (* 165  deferred wg.Done() *)
| Exited (err : error).

Record Goroutine := { to : string; pc : WorkerPc }.

(** Control points of the caller. *)
Inductive MainPc :=
| AtRange (rest : list string)                 (* 162  next iteration, or loop exit *)
| AtGo (recipient : string) (rest : list string) (* 164  go func(to string){..}(recipient) *)
| AtWait                                       (* 183  wg.Wait() *)
| Returned (result : SMSResponse).             (* 184  return response *)

Record State := {
  main : MainPc;
  workers : list Goroutine;
  wg : nat;               (* counter of the WaitGroup *)
  mu : bool;              (* is the Mutex locked *)
  semaphore : nat;        (* elements buffered in the channel *)
  response : SMSResponse;
  env : Env
}.

Definition set_main (m : MainPc) (s : State) : State :=
  {| main := m; workers := workers s; wg := wg s; mu := mu s;
     semaphore := semaphore s; response := response s; env := env s |}.

Definition set_workers (ws : list Goroutine) (s : State) : State :=
  {| main := main s; workers := ws; wg := wg s; mu := mu s;
     semaphore := semaphore s; response := response s; env := env s |}.

Definition set_wg (n : nat) (s : State) : State :=
  {| main := main s; workers := workers s; wg := n; mu := mu s;
     semaphore := semaphore s; response := response s; env := env s |}.

Definition set_mu (b : bool) (s : State) : State :=
  {| main := main s; workers := workers s; wg := wg s; mu := b;
     semaphore := semaphore s; response := response s; env := env s |}.

Definition set_semaphore (n : nat) (s : State) : State :=
  {| main := main s; workers := workers s; wg := wg s; mu := mu s;
     semaphore := n; response := response s; env := env s |}.

Definition set_response (r : SMSResponse) (s : State) : State :=
  {| main := main s; workers := workers s; wg := wg s; mu := mu s;
     semaphore := semaphore s; response := r; env := env s |}.

Definition set_env (e : Env) (s : State) : State :=
  {| main := main s; workers := workers s; wg := wg s; mu := mu s;
     semaphore := semaphore s; response := response s; env := e |}.

(** Worker [i] moves to control point [p]. *)
Fixpoint move (i : nat) (p : WorkerPc) (ws : list Goroutine) : list Goroutine :=
  match ws, i with
  | [], _ => []
  | g :: ws', O => {| to := to g; pc := p |} :: ws'
  | g :: ws', S j => g :: move j p ws'
  end.

Definition goto (i : nat) (p : WorkerPc) (s : State) : State :=
  set_workers (move i p (workers s)) s.

Definition log (l : LogEntry) (e : Env) : Env :=
  {| world := world e; calls := calls e; logs := logs e ++ [l] |}.

(** lines 172-178, executed with [mu] held *)
Definition record (recipient : string) (err : error) (s : State) : State :=
  match err with
  | Some text =>
      set_env (log (LogSendError recipient text) (env s))
        (set_response
           {| Sent := Sent (response s);
              Failed := Failed (response s) ++ [recipient];
              Total := Total (response s) |} s)
  | None =>
      set_env (log (LogSendOk recipient) (env s))
        (set_response
           {| Sent := Sent (response s) ++ [recipient];
              Failed := Failed (response s);
              Total := Total (response s) |} s)
  end.

(** *** What a control point says about its worker *)

(** The worker holds one element of [semaphore]. *)
Definition holds_slot (p : WorkerPc) : bool :=
  match p with
  | AtSend | InFlight _ | AtLock _ | AtRecord _ | AtUnlock _ | AtRelease _ => true
  | _ => false
  end.

(** The provider call of the worker is under way. *)
Definition in_flight (p : WorkerPc) : bool :=
  match p with InFlight _ => true | _ => false end.

(** The worker holds [mu]. *)
Definition holds_mu (p : WorkerPc) : bool :=
  match p with AtRecord _ | AtUnlock _ => true | _ => false end.

(** The worker has not yet called [wg.Done()]. *)
Definition running (p : WorkerPc) : bool :=
  match p with Exited _ => false | _ => true end.

(** The worker has issued its provider call. *)
Definition issued (p : WorkerPc) : bool :=
  match p with AtAcquire | AtSend => false | _ => true end.

(** The value of [err], once [sendSMS] has returned. *)
Definition outcome (p : WorkerPc) : option error :=
  match p with
  | AtAcquire | AtSend | InFlight _ => None
  | AtLock e | AtRecord e | AtUnlock e | AtRelease e | AtDone e | Exited e => Some e
  end.

(** The worker has appended its recipient to [Sent]. *)
Definition recorded_sent (p : WorkerPc) : bool :=
  match p with
  | AtUnlock None | AtRelease None | AtDone None | Exited None => true
  | _ => false
  end.

(** The worker has appended its recipient to [Failed]. *)
Definition recorded_failed (p : WorkerPc) : bool :=
  match p with
  | AtUnlock (Some _) | AtRelease (Some _) | AtDone (Some _) | Exited (Some _) => true
  | _ => false
  end.

(** The worker can move whatever the shared state is. *)
Definition unhindered (p : WorkerPc) : bool :=
  match p with
  | AtSend | InFlight _ | AtRecord _ | AtUnlock _ | AtRelease _ | AtDone _ => true
  | _ => false
  end.

Definition at_lock (p : WorkerPc) : bool :=
  match p with AtLock _ => true | _ => false end.

Definition at_acquire (p : WorkerPc) : bool :=
  match p with AtAcquire => true | _ => false end.

(** Actions the worker still has to take. *)
Definition remaining (p : WorkerPc) : nat :=
  match p with
  | AtAcquire => 8
  | AtSend => 7
  | InFlight _ => 6
  | AtLock _ => 5
  | AtRecord _ => 4
  | AtUnlock _ => 3
  | AtRelease _ => 2
  | AtDone _ => 1
  | Exited _ => 0
  end.

(** Number of workers whose control point satisfies [f]. *)
Fixpoint tally (f : WorkerPc -> bool) (ws : list Goroutine) : nat :=
  match ws with
  | [] => 0
  | g :: ws' => (if f (pc g) then 1 else 0) + tally f ws'
  end.

(** Recipients of the workers whose control point satisfies [f]. *)
Fixpoint select (f : WorkerPc -> bool) (ws : list Goroutine) : list string :=
  match ws with
  | [] => []
  | g :: ws' => if f (pc g) then to g :: select f ws' else select f ws'
  end.

Fixpoint work_left (ws : list Goroutine) : nat :=
  match ws with
  | [] => 0
  | g :: ws' => remaining (pc g) + work_left ws'
  end.

(** Recipients the range loop has not started a worker for. *)
Definition pending (m : MainPc) : list string :=
  match m with
  | AtRange rest => rest
  | AtGo recipient rest => recipient :: rest
  | AtWait | Returned _ => []
  end.

(** [wg.Add(1)] done, [go] statement not yet. *)
Definition added (m : MainPc) : nat :=
  match m with AtGo _ _ => 1 | _ => 0 end.

(** Upper bound on the actions left in the whole call: it goes down
    by one with every action. *)
Definition potential (s : State) : nat :=
  work_left (workers s) +
  match main s with
  | AtRange rest => 10 * length rest + 2
  | AtGo _ rest => 10 * length rest + 11
  | AtWait => 1
  | Returned _ => 0
  end.

Definition is_nil (e : error) : bool :=
  match e with None => true | Some _ => false end.

(** Given the [err] of every recipient, in input order: who belongs
    in [Sent], who in [Failed]. *)
Fixpoint successes (recipients : list string) (errs : list error) : list string :=
  match recipients, errs with
  | t :: recipients', e :: errs' =>
      if is_nil e then t :: successes recipients' errs' else successes recipients' errs'
  | _, _ => []
  end.

Fixpoint failures (recipients : list string) (errs : list error) : list string :=
  match recipients, errs with
  | t :: recipients', e :: errs' =>
      if is_nil e then failures recipients' errs' else t :: failures recipients' errs'
  | _, _ => []
  end.

(** [err] of every worker, [nil] while [sendSMS] has not returned. *)
Definition verdicts (ws : list Goroutine) : list error :=
  map (fun g => match outcome (pc g) with Some e => e | None => None end) ws.

Section Dispatch.

(** The [message] captured by the worker closures. *)
Variable message : string.

(** One atomic action of worker [i]; [None] when the worker does not
    exist, is blocked or has exited.  (A receive on the empty
    channel blocks; [Unlock] of an unlocked mutex and [Done] on a
    zero counter abort the program: none of the three has a
    successor state, and none is reachable, see [progress].) *)
Definition step_worker (i : nat) (s : State) : option State :=
  match nth_error (workers s) i with
  | None => None
  | Some g =>
      match pc g with
      | AtAcquire =>
          if (semaphore s <? capacity)%nat
          then Some (goto i AtSend (set_semaphore (S (semaphore s)) s))
          else None
      | AtSend =>
          let params := sendSMS_params (to g) message in
          Some (goto i (InFlight params) (set_env (issue params (env s)) s))
      | InFlight params =>
          let (r, e') := reply params (env s) in
          Some (goto i (AtLock (sendSMS_result r)) (set_env e' s))
      | AtLock err =>
          if mu s then None
          else Some (goto i (AtRecord err) (set_mu true s))
      | AtRecord err =>
          Some (goto i (AtUnlock err) (record (to g) err s))
      | AtUnlock err =>
          if mu s then Some (goto i (AtRelease err) (set_mu false s))
          else None
      | AtRelease err =>
          match semaphore s with
          | S n => Some (goto i (AtDone err) (set_semaphore n s))
          | O => None
          end
      | AtDone err =>
          match wg s with
          | S n => Some (goto i (Exited err) (set_wg n s))
          | O => None
          end
      | Exited _ => None
      end
  end.

(** One atomic action of the caller; [None] when it is blocked in
    [wg.Wait()] or has returned. *)
Definition step_main (s : State) : option State :=
  match main s with
  | AtRange [] => Some (set_main AtWait s)
  | AtRange (recipient :: rest) =>
      Some (set_main (AtGo recipient rest) (set_wg (S (wg s)) s))
  | AtGo recipient rest =>
      Some (set_main (AtRange rest)
              (set_workers (workers s ++ [{| to := recipient; pc := AtAcquire |}]) s))
  | AtWait =>
      match wg s with
      | O => Some (set_main (Returned (response s)) s)
      | S _ => None
      end
  | Returned _ => None
  end.

Definition step (t : tid) (s : State) : option State :=
  match t with
  | Main => step_main s
  | Worker i => step_worker i s
  end.

(** The runtime picks the goroutines of [sched], one action each. *)
Fixpoint run (sched : list tid) (s : State) : option State :=
  match sched with
  | [] => Some s
  | t :: sched' =>
      match step t s with
      | Some s' => run sched' s'
      | None => None
      end
  end.

(** lines 150-160: the state in which the range loop starts *)
Definition start (recipients : list string) (e : Env) : State :=
  {| main := AtRange recipients;
     workers := [];
     wg := 0;
     mu := false;
     semaphore := 0;
     response := {| Sent := []; Failed := []; Total := length recipients |};
     env := e |}.

(** [e] is what [sendSMS recipient message] returns in some state
    of the provider. *)
Definition justified (recipient : string) (e : error) : Prop :=
  exists w,
    e = sendSMS_result (fst (CreateMessage (sendSMS_params recipient message) w)).

Definition coherent (g : Goroutine) : Prop :=
  match pc g with
  | InFlight params => params = sendSMS_params (to g) message
  | p => match outcome p with
         | Some e => justified (to g) e
         | None => True
         end
  end.

(** The invariant of a call with recipients [recipients], started
    in environment [e0]. *)
Record Inv (recipients : list string) (e0 : Env) (s : State) : Prop := {
  inv_spawned : map to (workers s) ++ pending (main s) = recipients;
  inv_wg : wg s = tally running (workers s) + added (main s);
  inv_semaphore : semaphore s = tally holds_slot (workers s);
  inv_capacity : semaphore s <= capacity;
  inv_mu : (if mu s then 1 else 0) = tally holds_mu (workers s);
  inv_sent : Permutation (Sent (response s)) (select recorded_sent (workers s));
  inv_failed : Permutation (Failed (response s)) (select recorded_failed (workers s));
  inv_total : Total (response s) = length recipients;
  inv_calls : exists new,
      calls (env s) = calls e0 ++ new /\
      Permutation new
        (map (fun t => sendSMS_params t message) (select issued (workers s)));
  inv_coherent : Forall coherent (workers s);
  inv_returned : forall result,
      main s = Returned result ->
      result = response s /\ tally running (workers s) = 0
}.

(** What holds when the caller has its [result]. *)
Record Completed (recipients : list string) (e0 : Env)
       (s : State) (result : SMSResponse) : Prop := {
  done_result : result = response s;
  done_workers : map to (workers s) = recipients;
  done_exited : tally running (workers s) = 0;
  done_total : Total result = length recipients;
  done_sent : Permutation (Sent result) (successes recipients (verdicts (workers s)));
  done_failed : Permutation (Failed result) (failures recipients (verdicts (workers s)));
  done_justified : Forall2 justified recipients (verdicts (workers s));
  done_calls : exists new,
      calls (env s) = calls e0 ++ new /\ Permutation new (map (fun t => sendSMS_params t message) recipients);
  done_semaphore : semaphore s = 0;
  done_mu : mu s = false;
  done_wg : wg s = 0
}.

(** [sendBulkSMS recipients message] under schedule [sched]: the
    value returned to the caller and the environment left behind.
    [None] when [sched] is not a complete execution. *)
Definition sendBulkSMS (sched : list tid) (recipients : list string) (e : Env)
  : option (SMSResponse * Env) :=
  match run sched (start recipients e) with
  | Some s =>
      match main s with
      | Returned result => Some (result, env s)
      | _ => None
      end
  | None => None
  end.

End Dispatch.

(** *** HTTP handlers *)

(** [sendSMSHandler] (lines 83-111) *)
Definition sendSMSHandler (r : Request) (e : Env) : Reply * Env :=
  if negb (Method r =? MethodPost)%string then
    (http_Error "Método no permitido" StatusMethodNotAllowed, e)
  else
    match json.decode_single (Body r) with
    | None => (http_Error "Request inválido" StatusBadRequest, e)
    | Some req =>
        match sendSMS (json.To req) (json.Message req) e with
        | (Some err, e') =>
            (http_Error (Sprintf_v "Error al enviar SMS: " err)
               StatusInternalServerError, e')
        | (None, e') =>
            (write_json
               (JSONMap [("message", "SMS enviado correctamente");
                         ("status", "success");
                         ("to", json.To req)]), e')
        end
    end.

(** [sendBulkSMSHandler] (lines 114-131); [sched] is the schedule of
    the goroutines of its [sendBulkSMS] call. *)
Definition sendBulkSMSHandler (sched : list tid) (r : Request) (e : Env)
  : option (Reply * Env) :=
  if negb (Method r =? MethodPost)%string then
    Some (http_Error "Método no permitido" StatusMethodNotAllowed, e)
  else
    match decode_bulk (Body r) with
    | None => Some (http_Error "Request inválido" StatusBadRequest, e)
    | Some req =>
        match sendBulkSMS (Message req) sched (To req) e with
        | Some (response, e') => Some (write_json (JSONResponse response), e')
        | None => None
        end
    end.

(** [healthCheckHandler] (lines 188-194) *)
Definition healthCheckHandler (r : Request) : Reply :=
  write_json (JSONMap [("service", "twilio-sms-service"); ("status", "ok")]).

End Provider.

(** ** A provider to run the program against *)

Module Demo.

Inductive Refusal := InvalidNumber | RateLimited.

#[global] Instance Refusal_error : GoError Refusal :=
  fun r =>
    match r with
    | InvalidNumber => "invalid phone number"
    | RateLimited => "too many requests"
    end.

(** A provider that counts the messages it accepted and refuses the
    number +100 (and a message without a destination). *)
Definition CreateMessage (p : openapi.CreateMessageParams) (w : nat)
  : option Refusal * nat :=
  match openapi.To p with
  | Some t => if (t =? "+100")%string then (Some InvalidNumber, w) else (None, S w)
  | None => (Some InvalidNumber, w)
  end.

Definition config : TwilioConfig :=
  {| AccountSID := "AC00"; AuthToken := "secret"; FromPhone := "+15550000" |}.

Definition env0 : Env nat := {| world := 0; calls := []; logs := [] |}.

(** The caller runs the whole range loop, then the workers run to
    completion one after the other, then the caller returns. *)
Definition one_by_one (n : nat) : list tid :=
  repeat Main (2 * n + 1) ++
  flat_map (fun i => repeat (Worker i) 8) (seq 0 n) ++ [Main].

Notation step := (step CreateMessage config "hola").
Notation run := (run CreateMessage config "hola").
Notation sendBulkSMS := (sendBulkSMS CreateMessage config "hola").
Notation sendSMS := (sendSMS CreateMessage config).
Notation sendSMSHandler := (sendSMSHandler CreateMessage config).
Notation sendBulkSMSHandler := (sendBulkSMSHandler CreateMessage config).

(** Three recipients, one of them twice, one of them refused. *)
Definition recipients3 : list string := ["+1"; "+100"; "+1"].

Definition finished : State nat :=
  Eval vm_compute in
    match run (one_by_one 3) (start recipients3 env0) with
    | Some s => s
    | None => start recipients3 env0
    end.

(** Twelve recipients; the caller starts all workers, then the first
    ten take a slot and issue their call. *)
Definition crowd : list string := repeat "+1" 12.

Definition ten_in_flight : list tid :=
  repeat Main 25 ++ flat_map (fun i => [Worker i; Worker i]) (seq 0 10).

Definition saturated : State nat :=
  Eval vm_compute in
    match run ten_in_flight (start crowd env0) with
    | Some s => s
    | None => start crowd env0
    end.

Definition post (v : json.Value) : Request :=
  {| Method := "POST"; Body := Some v |}.

(** [{"to": ["+1", "+100", "+1"], "message": "hola"}] *)
Definition bulk_body : json.Value :=
  json.JObject
    [("to", json.JArray [json.JString "+1"; json.JString "+100"; json.JString "+1"]);
     ("message", json.JString "hola")].

(** [{"message": "hola"}] *)
Definition no_recipients : json.Value :=
  json.JObject [("message", json.JString "hola")].

(** [{"message": 42}] *)
Definition message_is_number : json.Value :=
  json.JObject [("message", json.JNumber "42")].

(** [{"TO": ["+1"], "message": "hola"}] *)
Definition upper_case_key : json.Value :=
  json.JObject
    [("TO", json.JArray [json.JString "+1"]); ("message", json.JString "hola")].

End Demo.

(** ** What the log says *)

(** Recipients of the success lines, oldest first. *)
Fixpoint logged_sent (l : list LogEntry) : list string :=
  match l with
  | [] => []
  | LogSendOk t :: l' => t :: logged_sent l'
  | LogSendError _ _ :: l' => logged_sent l'
  end.

(** Recipient and error text of the failure lines, oldest first. *)
Fixpoint logged_failed (l : list LogEntry) : list (string * string) :=
  match l with
  | [] => []
  | LogSendOk _ :: l' => logged_failed l'
  | LogSendError t text :: l' => (t, text) :: logged_failed l'
  end.

(** ** Sending one after the other *)

Section Sequential.

Variable World : Type.
Variable ProviderError : Type.
Context {ProviderError_error : GoError ProviderError}.
Variable CreateMessage :
  openapi.CreateMessageParams -> World -> option ProviderError * World.
Variable twilioConfig : TwilioConfig.
Variable message : string.

(** [sendSMS] for every element of [order], in that order: the [err]
    of each call and the environment after the last one. *)
Fixpoint send_all (order : list string) (e : Env World) : list error * Env World :=
  match order with
  | [] => ([], e)
  | t :: order' =>
      let (err, e1) := sendSMS CreateMessage twilioConfig t message e in
      let (errs, e2) := send_all order' e1 in
      (err :: errs, e2)
  end.

(** The workers whose [sendSMS] has returned, with their [err]. *)
Fixpoint outcomes (ws : list Goroutine) : list (string * error) :=
  match ws with
  | [] => []
  | g :: ws' =>
      match outcome (pc g) with
      | Some err => (to g, err) :: outcomes ws'
      | None => outcomes ws'
      end
  end.

(** The provider has answered the workers' calls in the order [order],
    starting from environment [e0]. *)
Definition Answered (e0 : Env World) (s : State World) (order : list string) : Prop :=
  world (env s) = world (snd (send_all order e0)) /\
  Permutation (combine order (fst (send_all order e0))) (outcomes (workers s)).

(** The lines written since the call started in [e0] are those of
    [Sent] and [Failed], in the order of the two slices, and every
    failure line carries an [err] that [sendSMS] returns for its
    recipient. *)
Definition Logged (e0 : Env World) (s : State World) : Prop :=
  exists new,
    logs (env s) = logs e0 ++ new /\
    logged_sent new = Sent (response s) /\
    map fst (logged_failed new) = Failed (response s) /\
    Forall (fun line =>
              justified CreateMessage twilioConfig message (fst line) (Some (snd line)))
           (logged_failed new).

End Sequential.

(** ** [main] (main.go, lines 39-80) *)

Module process.

Inductive Route := RouteSendSMS | RouteSendBulkSMS | RouteHealthCheck.

(** What [main] has set up when [http.ListenAndServe] is serving. *)
Record Server := {
  server_config : TwilioConfig;        (* the package-level twilioConfig *)
  client_username : string;            (* twilio.ClientParams.Username *)
  client_password : string;            (* twilio.ClientParams.Password *)
  patterns : list (string * Route);    (* http.HandleFunc, in order *)
  listen_addr : string
}.

Inductive Startup :=
| Fatal (line : string)                (* log.Fatal: the process exits *)
| Serving (srv : Server).

(** [main].  [dotenv_loaded] tells whether [godotenv.Load] found a
    [.env] file and [Getenv] is [os.Getenv] after it: the empty string
    for a variable that is not set.  [ListenAndServe addr] is the text
    of the error with which [http.ListenAndServe(addr, nil)] returns
    (it never returns nil), or [None] when it does not return and goes
    on serving.  The result is the lines written to the log and to
    standard output before the outcome, without time stamps and line
    ends, and the outcome. *)
Definition main (dotenv_loaded : bool) (Getenv : string -> string)
           (ListenAndServe : string -> option string)
  : list string * Startup :=
  let warning :=
    if dotenv_loaded then []
    else ["⚠️  No se encontró archivo .env, usando variables de entorno del sistema"] in
  let twilioConfig :=
    {| AccountSID := Getenv "TWILIO_ACCOUNT_SID";
       AuthToken := Getenv "TWILIO_AUTH_TOKEN";
       FromPhone := Getenv "TWILIO_PHONE_NUMBER" |} in
  if (AccountSID twilioConfig =? "")%string
     || (AuthToken twilioConfig =? "")%string
     || (FromPhone twilioConfig =? "")%string
  then
    (warning,
     Fatal "❌ Error: Configura TWILIO_ACCOUNT_SID, TWILIO_AUTH_TOKEN y TWILIO_PHONE_NUMBER en tu archivo .env")
  else
    let port := Getenv "PORT" in
    let port := if (port =? "")%string then "8080" else port in
    (warning ++
     ["✅ Configuración de Twilio cargada correctamente";
      ("🚀 Servidor corriendo en http://localhost:" ++ port)%string],
     match ListenAndServe (":" ++ port)%string with
     | Some err => Fatal err           (* line 79: log.Fatal(err) *)
     | None =>
         Serving
           {| server_config := twilioConfig;
              client_username := AccountSID twilioConfig;
              client_password := AuthToken twilioConfig;
              patterns := [("/send-sms", RouteSendSMS);
                           ("/send-bulk-sms", RouteSendBulkSMS);
                           ("/health", RouteHealthCheck)];
              listen_addr := (":" ++ port)%string |}
     end).

End process.

(** ** More runs of the program *)

Module Trial.

(** The caller starts three workers; the first one takes a slot, sends,
    gets its answer, locks the mutex and appends. *)
Definition first_worker_records : list tid :=
  repeat Main 7 ++ repeat (Worker 0) 5.

Definition recording : State nat :=
  Eval vm_compute in
    match Demo.run first_worker_records (start Demo.recipients3 Demo.env0) with
    | Some s => s
    | None => start Demo.recipients3 Demo.env0
    end.

(** The workers run to completion one after the other, last one first. *)
Definition last_first : list tid :=
  repeat Main 7 ++
  repeat (Worker 2) 8 ++ repeat (Worker 1) 8 ++ repeat (Worker 0) 8 ++ [Main].

Definition finished_last_first : State nat :=
  Eval vm_compute in
    match Demo.run last_first (start Demo.recipients3 Demo.env0) with
    | Some s => s
    | None => start Demo.recipients3 Demo.env0
    end.

Definition accepts (t : string) : bool := negb (t =? "+100")%string.

(** [{"to": "+1", "message": "hola"}] *)
Definition single_body : json.Value :=
  json.JObject [("to", json.JString "+1"); ("message", json.JString "hola")].

(** [{"text": "hola"}] *)
Definition unknown_member : list (string * json.Value) :=
  [("text", json.JString "hola")].

(** An environment with the three credentials and no PORT. *)
Definition Getenv (name : string) : string :=
  if (name =? "TWILIO_ACCOUNT_SID")%string then "AC00"
  else if (name =? "TWILIO_AUTH_TOKEN")%string then "secret"
  else if (name =? "TWILIO_PHONE_NUMBER")%string then "+15550000"
  else "".

(** Every address can be listened on, except one port out of range. *)
Definition ListenAndServe (addr : string) : option string :=
  if (addr =? ":99999")%string
  then Some "listen tcp: address 99999: invalid port"
  else None.

(** The same environment with PORT set to 99999. *)
Definition Getenv_bad_port (name : string) : string :=
  if (name =? "PORT")%string then "99999" else Getenv name.

Definition server : process.Server :=
  Eval vm_compute in
    match snd (process.main true Getenv ListenAndServe) with
    | process.Serving srv => srv
    | process.Fatal _ =>
        {| process.server_config := Demo.config;
           process.client_username := "";
           process.client_password := "";
           process.patterns := [];
           process.listen_addr := "" |}
    end.

End Trial.

(** * Properties *)

(** ** Lists of workers *)

Section Workers.

Variable f : WorkerPc -> bool.

Lemma tally_app (ws1 ws2 : list Goroutine) :
  tally f (ws1 ++ ws2) = tally f ws1 + tally f ws2.
Proof.
  induction ws1 as [|g ws1 IH]; simpl; [reflexivity|].
  rewrite IH. lia.
Qed.

Lemma select_app (ws1 ws2 : list Goroutine) :
  select f (ws1 ++ ws2) = select f ws1 ++ select f ws2.
Proof.
  induction ws1 as [|g ws1 IH]; simpl; [reflexivity|].
  destruct (f (pc g)); simpl; rewrite IH; reflexivity.
Qed.

Lemma tally_move (i : nat) (p : WorkerPc) (ws : list Goroutine) (g : Goroutine) :
  nth_error ws i = Some g ->
  tally f (move i p ws) + (if f (pc g) then 1 else 0)
  = tally f ws + (if f p then 1 else 0).
Proof.
  revert i; induction ws as [|g0 ws IH]; intros [|i] Hi; simpl in *;
    try discriminate.
  - injection Hi as ->. lia.
  - specialize (IH i Hi). lia.
Qed.

Lemma select_move_same (i : nat) (p : WorkerPc) (ws : list Goroutine) (g : Goroutine) :
  nth_error ws i = Some g ->
  f (pc g) = f p ->
  select f (move i p ws) = select f ws.
Proof.
  revert i; induction ws as [|g0 ws IH]; intros [|i] Hi Hf; simpl in *;
    try discriminate.
  - injection Hi as ->. rewrite Hf. reflexivity.
  - rewrite (IH i Hi Hf). reflexivity.
Qed.

Lemma select_move_new (i : nat) (p : WorkerPc) (ws : list Goroutine) (g : Goroutine) :
  nth_error ws i = Some g ->
  f (pc g) = false ->
  f p = true ->
  Permutation (select f ws ++ [to g]) (select f (move i p ws)).
Proof.
  revert i; induction ws as [|g0 ws IH]; intros [|i] Hi Hg Hp; simpl in *;
    try discriminate.
  - injection Hi as ->. rewrite Hg, Hp.
    apply Permutation_sym, Permutation_cons_append.
  - destruct (f (pc g0)); simpl; auto using Permutation_cons.
Qed.

Lemma tally_pick (ws : list Goroutine) :
  0 < tally f ws ->
  exists i g, nth_error ws i = Some g /\ f (pc g) = true.
Proof.
  induction ws as [|g ws IH]; simpl; [lia|].
  destruct (f (pc g)) eqn:Hg.
  - intros _. exists 0, g. auto.
  - intros H. destruct (IH H) as (i & g' & Hi & Hf).
    exists (S i), g'. auto.
Qed.

Lemma tally_member (ws : list Goroutine) (i : nat) (g : Goroutine) :
  nth_error ws i = Some g ->
  f (pc g) = true ->
  0 < tally f ws.
Proof.
  revert i; induction ws as [|g0 ws IH]; intros [|i] Hi Hf; simpl in *;
    try discriminate.
  - injection Hi as ->. rewrite Hf. lia.
  - specialize (IH i Hi Hf). lia.
Qed.

Lemma tally_le_length (ws : list Goroutine) : tally f ws <= length ws.
Proof.
  induction ws as [|g ws IH]; simpl; [lia|].
  destruct (f (pc g)); lia.
Qed.

End Workers.

Lemma tally_mono (f h : WorkerPc -> bool) (ws : list Goroutine) :
  (forall p, f p = true -> h p = true) ->
  tally f ws <= tally h ws.
Proof.
  intros Hfh. induction ws as [|g ws IH]; simpl; [lia|].
  destruct (f (pc g)) eqn:Hf.
  - rewrite (Hfh _ Hf). lia.
  - destruct (h (pc g)); lia.
Qed.

Lemma tally_running_split (ws : list Goroutine) :
  tally running ws = tally unhindered ws + tally at_lock ws + tally at_acquire ws.
Proof.
  induction ws as [|g ws IH]; simpl; [reflexivity|].
  rewrite IH. destruct (pc g); simpl; lia.
Qed.

Lemma map_to_move (i : nat) (p : WorkerPc) (ws : list Goroutine) :
  map to (move i p ws) = map to ws.
Proof.
  revert i; induction ws as [|g ws IH]; intros [|i]; simpl; auto.
  rewrite IH. reflexivity.
Qed.

Lemma length_move (i : nat) (p : WorkerPc) (ws : list Goroutine) :
  length (move i p ws) = length ws.
Proof.
  rewrite <- (length_map to (move i p ws)), map_to_move. apply length_map.
Qed.

Lemma Forall_move (P : Goroutine -> Prop) (i : nat) (p : WorkerPc)
      (ws : list Goroutine) (g : Goroutine) :
  nth_error ws i = Some g ->
  P {| to := to g; pc := p |} ->
  Forall P ws ->
  Forall P (move i p ws).
Proof.
  revert i; induction ws as [|g0 ws IH]; intros [|i] Hi Hp Hall; simpl in *;
    try discriminate; inversion Hall; subst.
  - injection Hi as ->. constructor; assumption.
  - constructor; eauto.
Qed.

Lemma work_left_move (i : nat) (p : WorkerPc) (ws : list Goroutine) (g : Goroutine) :
  nth_error ws i = Some g ->
  work_left (move i p ws) + remaining (pc g) = work_left ws + remaining p.
Proof.
  revert i; induction ws as [|g0 ws IH]; intros [|i] Hi; simpl in *;
    try discriminate.
  - injection Hi as ->. lia.
  - specialize (IH i Hi). lia.
Qed.

Lemma work_left_app (ws1 ws2 : list Goroutine) :
  work_left (ws1 ++ ws2) = work_left ws1 + work_left ws2.
Proof.
  induction ws1 as [|g ws1 IH]; simpl; [reflexivity|].
  rewrite IH. lia.
Qed.

Lemma nth_error_tally_zero (f : WorkerPc -> bool) (ws : list Goroutine)
      (i : nat) (g : Goroutine) :
  tally f ws = 0 ->
  nth_error ws i = Some g ->
  f (pc g) = false.
Proof.
  intros Hz Hi. destruct (f (pc g)) eqn:Hf; [|reflexivity].
  pose proof (tally_member f ws i Hi Hf). lia.
Qed.

Lemma exited_views (ws : list Goroutine) :
  tally running ws = 0 ->
  select recorded_sent ws = successes (map to ws) (verdicts ws) /\
  select recorded_failed ws = failures (map to ws) (verdicts ws) /\
  select issued ws = map to ws /\
  tally holds_slot ws = 0 /\
  tally holds_mu ws = 0.
Proof.
  induction ws as [|g ws IH]; simpl; [auto|].
  destruct (pc g) as [| |p|err|err|err|err|err|err]; simpl; try discriminate.
  intros Hz. destruct (IH Hz) as (-> & -> & -> & -> & ->).
  destruct err; simpl; auto.
Qed.

Lemma successes_failures (recipients : list string) (errs : list error) :
  length recipients = length errs ->
  Permutation (successes recipients errs ++ failures recipients errs) recipients.
Proof.
  revert errs; induction recipients as [|t recipients IH]; intros [|e errs];
    simpl; try discriminate; auto.
  intros [= Hlen]. destruct (is_nil e); simpl.
  - auto.
  - apply Permutation_sym, Permutation_cons_app, Permutation_sym. auto.
Qed.

Lemma length_successes_failures (recipients : list string) (errs : list error) :
  length recipients = length errs ->
  length (successes recipients errs) + length (failures recipients errs)
  = length recipients.
Proof.
  intros Hlen. rewrite <- length_app.
  apply Permutation_length, successes_failures, Hlen.
Qed.

(** ** The dispatcher *)

(** Worker [i] moved from the control point of [Hpc] to [p]: the change
    of the three counters. *)
Ltac moved Hi p Hpc :=
  let Hr := fresh "Hr" in
  let Hs := fresh "Hs" in
  let Hm := fresh "Hm" in
  pose proof (tally_move running _ p _ Hi) as Hr;
  pose proof (tally_move holds_slot _ p _ Hi) as Hs;
  pose proof (tally_move holds_mu _ p _ Hi) as Hm;
  rewrite Hpc in Hr, Hs, Hm; simpl in Hr, Hs, Hm.

(** Closes the conjuncts of the invariant that a move leaves alone. *)
Ltac stable Hi Hpc :=
  try assumption;
  try lia;
  try (unfold capacity in *; lia);
  try (rewrite (select_move_same _ _ _ _ Hi) by (rewrite ?Hpc; reflexivity);
       assumption);
  try (intros ? Hreturned;
       match goal with
       | Hrun : forall r, _ = Returned r -> _ |- _ =>
           specialize (Hrun _ Hreturned); discriminate
       end).

Section Dispatcher.

Variables World ProviderError : Type.
Context {ProviderError_error : GoError ProviderError}.
Variable CreateMessage :
  openapi.CreateMessageParams -> World -> option ProviderError * World.
Variable twilioConfig : TwilioConfig.
Variable message : string.

Local Notation step := (step CreateMessage twilioConfig message).
Local Notation step_worker := (step_worker CreateMessage twilioConfig message).
Local Notation run := (run CreateMessage twilioConfig message).
Local Notation Inv := (Inv CreateMessage twilioConfig message).
Local Notation coherent := (coherent CreateMessage twilioConfig message).
Local Notation justified := (justified CreateMessage twilioConfig message).
Local Notation Completed := (Completed CreateMessage twilioConfig message).
Local Notation sendBulkSMS := (sendBulkSMS CreateMessage twilioConfig message).
Local Notation params := (fun t => sendSMS_params twilioConfig t message).

Lemma Inv_start (recipients : list string) (e : Env World) :
  Inv recipients e (start recipients e).
Proof.
  constructor; simpl; auto.
  - unfold capacity. lia.
  - exists []. rewrite app_nil_r. auto.
  - discriminate.
Qed.

Lemma Inv_step_main (recipients : list string) (e0 : Env World) (s s' : State World) :
  Inv recipients e0 s ->
  step_main s = Some s' ->
  Inv recipients e0 s'.
Proof.
  intros [Hsp Hwg Hsem Hcap Hmu Hsent Hfail Htot Hcalls Hcoh Hret].
  unfold step_main.
  destruct (main s) as [[|recipient rest]|recipient rest| |result] eqn:Hmain;
    simpl in *.
  - (* the loop is over *)
    intros [= <-]. constructor; simpl; auto. discriminate.
  - (* wg.Add(1) *)
    intros [= <-]. constructor; simpl; auto; [lia | discriminate].
  - (* go *)
    intros [= <-]. constructor; simpl; auto.
    + rewrite map_app, <- app_assoc. exact Hsp.
    + rewrite tally_app. simpl. lia.
    + rewrite tally_app. simpl. lia.
    + rewrite tally_app. simpl. lia.
    + rewrite select_app. simpl. rewrite app_nil_r. exact Hsent.
    + rewrite select_app. simpl. rewrite app_nil_r. exact Hfail.
    + rewrite select_app. simpl. rewrite app_nil_r. exact Hcalls.
    + apply Forall_app. split; [exact Hcoh|]. repeat constructor.
    + discriminate.
  - (* wg.Wait() *)
    destruct (wg s) eqn:Hz; [|discriminate].
    intros [= <-]. constructor; simpl; auto; [lia|].
    intros result [= <-]. split; [reflexivity | lia].
  - discriminate.
Qed.

Lemma Inv_step_worker (recipients : list string) (e0 : Env World)
      (i : nat) (s s' : State World) :
  Inv recipients e0 s ->
  step_worker i s = Some s' ->
  Inv recipients e0 s'.
Proof.
  intros [Hsp Hwg Hsem Hcap Hmu Hsent Hfail Htot Hcalls Hcoh Hret].
  unfold step_worker.
  destruct (nth_error (workers s) i) as [g|] eqn:Hi; [|discriminate].
  assert (Hrun : forall result, main s = Returned result -> running (pc g) = false).
  { intros result Hm. destruct (Hret result Hm) as [_ Hz].
    exact (nth_error_tally_zero running (workers s) i Hz Hi). }
  assert (Hcg : coherent g).
  { rewrite Forall_forall in Hcoh. apply Hcoh. eapply nth_error_In; eauto. }
  unfold coherent in Hcg.
  destruct (pc g) as [| |p|err|err|err|err|err|err] eqn:Hpc; simpl in Hcg.
  - (* semaphore <- struct{}{} *)
    destruct (semaphore s <? capacity)%nat eqn:Hfree; [|discriminate].
    apply Nat.ltb_lt in Hfree.
    intros [= <-]. moved Hi AtSend Hpc.
    constructor; simpl; rewrite ?map_to_move; stable Hi Hpc.
    apply (Forall_move i AtSend Hi); [exact I | exact Hcoh].
  - (* sendSMS is entered and issues the call *)
    intros [= <-]. moved Hi (InFlight (params (to g))) Hpc.
    constructor; simpl; rewrite ?map_to_move; stable Hi Hpc.
    + destruct Hcalls as (new & Hnew & Hperm).
      exists (new ++ [params (to g)]). split.
      * rewrite Hnew, app_assoc. reflexivity.
      * rewrite <- (select_move_new issued i (InFlight (params (to g)))
                      (workers s) Hi) by (rewrite ?Hpc; reflexivity).
        rewrite map_app. simpl. apply Permutation_app_tail. exact Hperm.
    + apply (Forall_move i _ Hi); [reflexivity | exact Hcoh].
  - (* the provider answers, sendSMS returns *)
    unfold reply.
    destruct (CreateMessage p (world (env s))) as [r w] eqn:Hreply.
    intros [= <-]. moved Hi (AtLock (sendSMS_result r)) Hpc.
    constructor; simpl; rewrite ?map_to_move; stable Hi Hpc.
    apply (Forall_move i _ Hi); [|exact Hcoh].
    exists (world (env s)). simpl. rewrite <- Hcg, Hreply. reflexivity.
  - (* mu.Lock() *)
    destruct (mu s) eqn:Hlocked; [discriminate|].
    intros [= <-]. moved Hi (AtRecord err) Hpc.
    constructor; simpl; rewrite ?map_to_move; stable Hi Hpc.
    apply (Forall_move i _ Hi); [exact Hcg | exact Hcoh].
  - (* append under the mutex *)
    intros [= <-]. moved Hi (AtUnlock err) Hpc.
    destruct err as [text|];
      constructor; simpl; rewrite ?map_to_move; stable Hi Hpc.
    + rewrite <- (select_move_new recorded_failed i (AtUnlock (Some text))
                    (workers s) Hi) by (rewrite ?Hpc; reflexivity).
      apply Permutation_app_tail. exact Hfail.
    + apply (Forall_move i _ Hi); [exact Hcg | exact Hcoh].
    + rewrite <- (select_move_new recorded_sent i (AtUnlock None)
                    (workers s) Hi) by (rewrite ?Hpc; reflexivity).
      apply Permutation_app_tail. exact Hsent.
    + apply (Forall_move i _ Hi); [exact Hcg | exact Hcoh].
  - (* mu.Unlock() *)
    destruct (mu s) eqn:Hlocked; [|discriminate].
    intros [= <-]. moved Hi (AtRelease err) Hpc.
    constructor; simpl; rewrite ?map_to_move; stable Hi Hpc.
    apply (Forall_move i _ Hi); [exact Hcg | exact Hcoh].
  - (* <-semaphore *)
    destruct (semaphore s) as [|n] eqn:Hn; [discriminate|].
    intros [= <-]. moved Hi (AtDone err) Hpc.
    constructor; simpl; rewrite ?map_to_move; stable Hi Hpc.
    apply (Forall_move i _ Hi); [exact Hcg | exact Hcoh].
  - (* wg.Done() *)
    destruct (wg s) as [|n] eqn:Hn; [discriminate|].
    intros [= <-]. moved Hi (Exited err) Hpc.
    constructor; simpl; rewrite ?map_to_move; stable Hi Hpc.
    apply (Forall_move i _ Hi); [exact Hcg | exact Hcoh].
  - discriminate.
Qed.

Lemma Inv_step (recipients : list string) (e0 : Env World)
      (t : tid) (s s' : State World) :
  Inv recipients e0 s ->
  step t s = Some s' ->
  Inv recipients e0 s'.
Proof.
  destruct t as [|i]; simpl; eauto using Inv_step_main, Inv_step_worker.
Qed.

Lemma Inv_run (recipients : list string) (e0 : Env World)
      (sched : list tid) (s s' : State World) :
  Inv recipients e0 s ->
  run sched s = Some s' ->
  Inv recipients e0 s'.
Proof.
  revert s; induction sched as [|t sched IH]; simpl; intros s HI Hrun.
  - injection Hrun as <-. exact HI.
  - destruct (step t s) as [s1|] eqn:Hstep; [|discriminate].
    eauto using Inv_step.
Qed.

(** Every state of every execution satisfies the invariant. *)
Lemma Inv_reachable (recipients : list string) (e : Env World)
      (sched : list tid) (s : State World) :
  run sched (start recipients e) = Some s ->
  Inv recipients e s.
Proof. apply Inv_run, Inv_start. Qed.

Lemma run_app (sched1 sched2 : list tid) (s : State World) :
  run (sched1 ++ sched2) s =
  match run sched1 s with
  | Some s1 => run sched2 s1
  | None => None
  end.
Proof.
  revert s; induction sched1 as [|t sched1 IH]; simpl; intros s; [reflexivity|].
  destruct (step t s); auto.
Qed.

(** *** Termination: every action uses up one unit of [potential] *)

Lemma potential_step (t : tid) (s s' : State World) :
  step t s = Some s' ->
  potential s = S (potential s').
Proof.
  destruct t as [|i]; simpl.
  - unfold step_main, potential.
    destruct (main s) as [[|recipient rest]|recipient rest| |result] eqn:Hmain.
    + intros [= <-]. simpl. lia.
    + intros [= <-]. simpl. lia.
    + intros [= <-]. simpl. rewrite work_left_app. simpl. lia.
    + destruct (wg s); [|discriminate]. intros [= <-]. simpl. lia.
    + discriminate.
  - unfold step_worker, potential.
    destruct (nth_error (workers s) i) as [g|] eqn:Hi; [|discriminate].
    destruct (pc g) as [| |p|err|err|err|err|err|err] eqn:Hpc.
    + destruct (semaphore s <? capacity)%nat; [|discriminate].
      intros [= <-]. simpl.
      pose proof (work_left_move i AtSend (workers s) Hi) as Hw.
      rewrite Hpc in Hw. simpl in Hw. lia.
    + intros [= <-]. simpl.
      pose proof (work_left_move i
                    (InFlight (sendSMS_params twilioConfig (to g) message))
                    (workers s) Hi) as Hw.
      rewrite Hpc in Hw. simpl in Hw. lia.
    + unfold reply. destruct (CreateMessage p (world (env s))) as [r w].
      intros [= <-]. simpl.
      pose proof (work_left_move i (AtLock (sendSMS_result r)) (workers s) Hi) as Hw.
      rewrite Hpc in Hw. simpl in Hw. lia.
    + destruct (mu s); [discriminate|]. intros [= <-]. simpl.
      pose proof (work_left_move i (AtRecord err) (workers s) Hi) as Hw.
      rewrite Hpc in Hw. simpl in Hw. lia.
    + intros [= <-].
      pose proof (work_left_move i (AtUnlock err) (workers s) Hi) as Hw.
      rewrite Hpc in Hw. destruct err; simpl in *; lia.
    + destruct (mu s); [|discriminate]. intros [= <-]. simpl.
      pose proof (work_left_move i (AtRelease err) (workers s) Hi) as Hw.
      rewrite Hpc in Hw. simpl in Hw. lia.
    + destruct (semaphore s); [discriminate|]. intros [= <-]. simpl.
      pose proof (work_left_move i (AtDone err) (workers s) Hi) as Hw.
      rewrite Hpc in Hw. simpl in Hw. lia.
    + destruct (wg s); [discriminate|]. intros [= <-]. simpl.
      pose proof (work_left_move i (Exited err) (workers s) Hi) as Hw.
      rewrite Hpc in Hw. simpl in Hw. lia.
    + discriminate.
Qed.

(** An execution of [k] actions has used up [k] units. *)
Lemma potential_run (sched : list tid) (s s' : State World) :
  run sched s = Some s' ->
  potential s = length sched + potential s'.
Proof.
  revert s; induction sched as [|t sched IH]; simpl; intros s Hrun.
  - injection Hrun as <-. reflexivity.
  - destruct (step t s) as [s1|] eqn:Hstep; [|discriminate].
    rewrite (potential_step _ _ Hstep), (IH _ Hrun). reflexivity.
Qed.

(** *** Absence of deadlock *)

(** A worker that is not waiting for the semaphore or the mutex can
    always move. *)
Lemma unhindered_moves (recipients : list string) (e0 : Env World)
      (s : State World) (i : nat) (g : Goroutine) :
  Inv recipients e0 s ->
  nth_error (workers s) i = Some g ->
  unhindered (pc g) = true ->
  exists s', step (Worker i) s = Some s'.
Proof.
  intros HI Hi Hu. simpl. unfold step_worker. rewrite Hi.
  destruct (pc g) as [| |p|err|err|err|err|err|err] eqn:Hpc; try discriminate.
  - eauto.
  - unfold reply. destruct (CreateMessage p (world (env s))). eauto.
  - eauto.
  - assert (0 < tally holds_mu (workers s)) as Hpos.
    { apply (tally_member holds_mu _ _ Hi). rewrite Hpc. reflexivity. }
    pose proof (inv_mu HI) as Hmu. destruct (mu s); [eauto | lia].
  - assert (0 < tally holds_slot (workers s)) as Hpos.
    { apply (tally_member holds_slot _ _ Hi). rewrite Hpc. reflexivity. }
    pose proof (inv_semaphore HI) as Hsem.
    destruct (semaphore s); [lia | eauto].
  - assert (0 < tally running (workers s)) as Hpos.
    { apply (tally_member running _ _ Hi). rewrite Hpc. reflexivity. }
    pose proof (inv_wg HI) as Hwg.
    destruct (wg s); [lia | eauto].
Qed.

(** Until the caller has returned, some goroutine can take a step. *)
Lemma progress (recipients : list string) (e0 : Env World) (s : State World) :
  Inv recipients e0 s ->
  (forall result, main s <> Returned result) ->
  exists t s', step t s = Some s'.
Proof.
  intros HI Hnot.
  destruct (main s) as [[|recipient rest]|recipient rest| |result] eqn:Hmain.
  - exists Main. simpl. unfold step_main. rewrite Hmain. eauto.
  - exists Main. simpl. unfold step_main. rewrite Hmain. eauto.
  - exists Main. simpl. unfold step_main. rewrite Hmain. eauto.
  - destruct (wg s) as [|n] eqn:Hwg.
    { exists Main. simpl. unfold step_main. rewrite Hmain, Hwg. eauto. }
    pose proof (inv_wg HI) as Hcount. rewrite Hmain, Hwg in Hcount. simpl in Hcount.
    rewrite tally_running_split in Hcount.
    destruct (Nat.eq_dec (tally unhindered (workers s)) 0) as [Hidle|Hbusy].
    + destruct (Nat.eq_dec (tally at_lock (workers s)) 0) as [Hnolock|Hlock].
      * (* every live worker waits for a slot, and all slots are free *)
        destruct (tally_pick at_acquire (workers s)) as (i & g & Hi & Hg); [lia|].
        exists (Worker i). simpl. unfold step_worker. rewrite Hi.
        destruct (pc g); try discriminate.
        assert (tally holds_slot (workers s) <=
                tally unhindered (workers s) + tally at_lock (workers s)) as Hle.
        { clear. induction (workers s) as [|g ws IH]; simpl; [lia|].
          destruct (pc g); simpl; lia. }
        pose proof (inv_semaphore HI) as Hsem.
        assert ((semaphore s <? capacity)%nat = true) as ->.
        { apply Nat.ltb_lt. unfold capacity. lia. }
        eauto.
      * (* a worker waits for the mutex, and nobody holds it *)
        destruct (tally_pick at_lock (workers s)) as (i & g & Hi & Hg); [lia|].
        exists (Worker i). simpl. unfold step_worker. rewrite Hi.
        destruct (pc g); try discriminate.
        assert (tally holds_mu (workers s) <= tally unhindered (workers s)) as Hle.
        { apply tally_mono. intros [] ; simpl; congruence. }
        pose proof (inv_mu HI) as Hmu.
        destruct (mu s); [lia | eauto].
    + destruct (tally_pick unhindered (workers s)) as (i & g & Hi & Hg); [lia|].
      destruct (unhindered_moves i HI Hi Hg) as [s' Hs'].
      exists (Worker i), s'. exact Hs'.
  - destruct (Hnot result eq_refl).
Qed.

(** From every reachable state the call runs to completion. *)
Lemma completes (recipients : list string) (e0 : Env World) (s : State World) :
  Inv recipients e0 s ->
  exists sched s' result,
    run sched s = Some s' /\ main s' = Returned result.
Proof.
  remember (potential s) as n eqn:Hn.
  revert s Hn. induction n as [n IH] using lt_wf_ind. intros s Hn HI.
  destruct (main s) as [rest|recipient rest| |result] eqn:Hmain.
  4: { exists [], s, result. auto. }
  all: destruct (progress HI) as (t & s1 & Hstep);
    [ intros result; rewrite Hmain; discriminate | ];
    pose proof (potential_step _ _ Hstep) as Hpot;
    destruct (IH (potential s1) (ltac:(lia)) s1 eq_refl (Inv_step _ HI Hstep))
      as (sched & s' & result & Hrun & Hret);
    exists (t :: sched), s', result; simpl; rewrite Hstep; auto.
Qed.

(** *** The state in which the caller returns *)

Lemma exited_justified (ws : list Goroutine) :
  tally running ws = 0 ->
  Forall coherent ws ->
  Forall2 justified (map to ws) (verdicts ws).
Proof.
  induction ws as [|g ws IH]; simpl; intros Hz Hall; [constructor|].
  inversion Hall as [|? ? Hg Hws]; subst.
  unfold coherent in Hg.
  destruct (pc g) as [| |p|err|err|err|err|err|err]; simpl in *; try discriminate.
  constructor; auto.
Qed.

Lemma returned_completed (recipients : list string) (e : Env World)
      (sched : list tid) (s : State World) (result : SMSResponse) :
  run sched (start recipients e) = Some s ->
  main s = Returned result ->
  Completed recipients e s result.
Proof.
  intros Hrun Hmain. pose proof (Inv_reachable _ _ _ Hrun) as HI.
  destruct HI as [Hsp Hwg Hsem Hcap Hmu Hsent Hfail Htot Hcalls Hcoh Hret].
  destruct (Hret result Hmain) as [-> Hz].
  rewrite Hmain in *. simpl in *. rewrite app_nil_r in Hsp.
  destruct (exited_views _ Hz) as (Hs & Hf & Hi & Hslot & Hlock).
  rewrite Hs, Hsp in Hsent. rewrite Hf, Hsp in Hfail. rewrite Hi, Hsp in Hcalls.
  pose proof (exited_justified Hz Hcoh) as Hj. rewrite Hsp in Hj.
  constructor; auto; try lia.
  destruct (mu s); [lia | reflexivity].
Qed.

Lemma sendBulkSMS_run (sched : list tid) (recipients : list string)
      (e e' : Env World) (result : SMSResponse) :
  sendBulkSMS sched recipients e = Some (result, e') <->
  exists s, run sched (start recipients e) = Some s /\
            main s = Returned result /\ env s = e'.
Proof.
  unfold sendBulkSMS. split.
  - destruct (run sched (start recipients e)) as [s|]; [|discriminate].
    destruct (main s) eqn:Hmain; try discriminate.
    intros [= <- <-]. eauto.
  - intros (s & -> & -> & <-). reflexivity.
Qed.

(** [sendBulkSMS] returns: from whatever the goroutines have done so
    far, the execution can be continued until the caller has its
    result, and no execution takes more than [10 * n + 2] actions. *)
Lemma sendBulkSMS_returns (recipients : list string) (e : Env World)
      (sched : list tid) (s : State World) :
  run sched (start recipients e) = Some s ->
  length sched <= 10 * length recipients + 2 /\
  exists sched' result e',
    sendBulkSMS (sched ++ sched') recipients e = Some (result, e').
Proof.
  intros Hrun. split.
  - pose proof (potential_run _ _ Hrun) as Hpot.
    unfold potential at 1 in Hpot. simpl in Hpot. lia.
  - destruct (completes (Inv_reachable _ _ _ Hrun))
      as (sched' & s' & result & Hrun' & Hret).
    exists sched', result, (env s'). apply sendBulkSMS_run.
    exists s'. rewrite run_app, Hrun. auto.
Qed.

Lemma sendBulkSMS_completed (sched : list tid) (recipients : list string)
      (e e' : Env World) (result : SMSResponse) :
  sendBulkSMS sched recipients e = Some (result, e') ->
  exists s, run sched (start recipients e) = Some s /\
            env s = e' /\ Completed recipients e s result.
Proof.
  intros Hbulk. apply sendBulkSMS_run in Hbulk.
  destruct Hbulk as (s & Hrun & Hmain & Henv).
  exists s. eauto using returned_completed.
Qed.

Lemma length_verdicts (ws : list Goroutine) :
  length (verdicts ws) = length (map to ws).
Proof. unfold verdicts. rewrite !length_map. reflexivity. Qed.

Lemma completed_count (recipients : list string) (e0 : Env World)
      (s : State World) (result : SMSResponse) :
  Completed recipients e0 s result ->
  length (Sent result) + length (Failed result) = Total result.
Proof.
  intros C.
  rewrite (Permutation_length (done_sent C)), (Permutation_length (done_failed C)).
  rewrite (done_total C). apply length_successes_failures.
  rewrite length_verdicts, (done_workers C). reflexivity.
Qed.

(** *** The claims about the dispatcher *)

(** C1.  Whatever the goroutines have done so far, the call can run to
    completion and hand a result to its caller; and in every state in
    which the caller holds a result, [len(Sent) + len(Failed) = Total],
    one worker per recipient was started and every one of them has done
    its [wg.Done()], so that the result is the final one: there is no
    state in which the caller sees a partial result. *)
Theorem dispatch_result_is_complete (recipients : list string) (e : Env World)
        (sched : list tid) (s : State World) :
  run sched (start recipients e) = Some s ->
  (exists sched' result e',
      sendBulkSMS (sched ++ sched') recipients e = Some (result, e')) /\
  (forall result,
      main s = Returned result ->
      length (Sent result) + length (Failed result) = Total result /\
      result = response s /\
      length (workers s) = length recipients /\
      tally running (workers s) = 0).
Proof.
  intros Hrun. split.
  - apply (sendBulkSMS_returns _ _ _ Hrun).
  - intros result Hmain.
    pose proof (returned_completed _ _ _ Hrun Hmain) as C.
    repeat split.
    + apply (completed_count C).
    + apply (done_result C).
    + rewrite <- (done_workers C). symmetry. apply length_map.
    + apply (done_exited C).
Qed.


(** C4.  The call returns, and whenever it does [Total] is the length
    of the recipient list as supplied and the provider calls made are,
    up to their order, one call per element of that list: an element
    that occurs twice is sent to twice. *)
Theorem total_counts_every_occurrence (recipients : list string) (e : Env World) :
  (exists sched result e', sendBulkSMS sched recipients e = Some (result, e')) /\
  (forall sched result e',
      sendBulkSMS sched recipients e = Some (result, e') ->
      Total result = length recipients /\
      exists new,
        calls e' = calls e ++ new /\
        Permutation new (map params recipients) /\
        length new = length recipients).
Proof.
  split.
  - apply (sendBulkSMS_returns recipients e [] eq_refl).
  - intros sched result e' Hbulk.
    destruct (sendBulkSMS_completed _ _ _ Hbulk) as (s & Hrun & <- & C).
    split; [apply (done_total C)|].
    destruct (done_calls C) as (new & Hnew & Hperm).
    exists new. repeat split; auto.
    rewrite (Permutation_length Hperm). apply length_map.
Qed.

(** C5.  For the empty list the caller leaves the loop and passes
    [wg.Wait()] at once: these two actions of the caller are the only
    complete execution, no worker exists, the result is
    [{Sent: [], Failed: [], Total: 0}] and the environment (provider
    state, call log, log output) is untouched. *)
Theorem empty_batch (e : Env World) :
  sendBulkSMS [Main; Main] [] e
  = Some ({| Sent := []; Failed := []; Total := 0 |}, e) /\
  (forall sched result e',
      sendBulkSMS sched [] e = Some (result, e') ->
      sched = [Main; Main] /\
      result = {| Sent := []; Failed := []; Total := 0 |} /\
      e' = e).
Proof.
  split; [reflexivity|].
  intros sched result e' Hbulk. apply sendBulkSMS_run in Hbulk.
  destruct Hbulk as (s & Hrun & Hmain & <-). revert Hrun.
  destruct sched as [|[|i] [|[|j] [|[|k] sched]]]; simpl;
    try discriminate; try (destruct i; discriminate);
    try (destruct j; discriminate);
    try (destruct k; discriminate);
    intros [= <-]; try discriminate.
  simpl in Hmain. injection Hmain as <-. auto.
Qed.

(** C9.  The call returns, and whenever it does there is one [err] per
    element of the recipient list, each of them a value that [sendSMS]
    returns for that recipient in some state of the provider, such that
    [Sent] holds exactly the occurrences whose [err] is nil and [Failed]
    exactly the others, as multisets; hence [Sent] and [Failed] together
    are the recipient list as a multiset. *)
Theorem sent_failed_partition (recipients : list string) (e : Env World) :
  (exists sched result e', sendBulkSMS sched recipients e = Some (result, e')) /\
  (forall sched result e',
      sendBulkSMS sched recipients e = Some (result, e') ->
      exists errs : list error,
        Forall2 justified recipients errs /\
        Permutation (Sent result) (successes recipients errs) /\
        Permutation (Failed result) (failures recipients errs) /\
        Permutation (Sent result ++ Failed result) recipients).
Proof.
  split.
  - apply (sendBulkSMS_returns recipients e [] eq_refl).
  - intros sched result e' Hbulk.
    destruct (sendBulkSMS_completed _ _ _ Hbulk) as (s & Hrun & <- & C).
    exists (verdicts (workers s)).
    split; [apply (done_justified C)|].
    split; [apply (done_sent C)|].
    split; [apply (done_failed C)|].
    rewrite (done_sent C), (done_failed C).
    apply successes_failures.
    rewrite length_verdicts, (done_workers C). reflexivity.
Qed.

(** *** A provider that refuses exactly one recipient *)

Section OneRefusal.

Variable X : string.
Hypothesis refuses_X :
  forall t w,
    fst (CreateMessage (sendSMS_params twilioConfig t message) w) <> None <-> t = X.

Lemma justified_refusal (t : string) (e : error) :
  justified t e ->
  is_nil e = negb (X =? t)%string.
Proof.
  intros [w ->].
  pose proof (refuses_X t w) as Hx.
  destruct (fst (CreateMessage (params t) w)) as [err|]; simpl.
  - destruct Hx as [Hx _]. rewrite (Hx ltac:(discriminate)).
    rewrite String.eqb_refl. reflexivity.
  - destruct (String.eqb_spec X t) as [->|Hne]; [|reflexivity].
    destruct Hx as [_ Hx]. destruct (Hx eq_refl). reflexivity.
Qed.

Lemma verdicts_refusal (recipients : list string) (errs : list error) :
  Forall2 justified recipients errs ->
  successes recipients errs = filter (fun t => negb (X =? t)%string) recipients /\
  failures recipients errs = filter (fun t => (X =? t)%string) recipients.
Proof.
  induction 1 as [|t e recipients errs Hj _ [IHs IHf]]; simpl; [auto|].
  rewrite (justified_refusal Hj), IHs, IHf.
  destruct (X =? t)%string; simpl; auto.
Qed.

(** C3.  When the provider, in every state, fails the call made for
    recipient [X] and for no other, [sendBulkSMS] returns, and in whatever order the goroutines
    ran [Failed] is made of the occurrences of [X] in the recipient list
    and [Sent] of all other elements of it, as multisets: [X] is in
    [Failed] if it was a recipient and never in [Sent], every other
    recipient is in [Sent], and nothing else is in [Failed]. *)
Theorem only_X_fails (recipients : list string) (e : Env World) :
  (exists sched result e', sendBulkSMS sched recipients e = Some (result, e')) /\
  (forall sched result e',
      sendBulkSMS sched recipients e = Some (result, e') ->
      Permutation (Failed result) (filter (fun t => (X =? t)%string) recipients) /\
      Permutation (Sent result)
                  (filter (fun t => negb (X =? t)%string) recipients) /\
      (In X recipients -> In X (Failed result)) /\
      (forall t, In t recipients -> t <> X -> In t (Sent result)) /\
      ~ In X (Sent result) /\
      (forall t, In t (Failed result) -> t = X)).
Proof.
  split.
  - apply (sendBulkSMS_returns recipients e [] eq_refl).
  - intros sched result e' Hbulk.
    destruct (sendBulkSMS_completed _ _ _ Hbulk) as (s & Hrun & <- & C).
    destruct (verdicts_refusal (done_justified C)) as [Hs Hf].
    pose proof (done_sent C) as Hsent. rewrite Hs in Hsent.
    pose proof (done_failed C) as Hfailed. rewrite Hf in Hfailed.
    split; [exact Hfailed|]. split; [exact Hsent|].
    split; [|split; [|split]].
    + intros Hin. apply (Permutation_in _ (Permutation_sym Hfailed)).
      apply filter_In. split; [exact Hin | apply String.eqb_refl].
    + intros t Hin Hne. apply (Permutation_in _ (Permutation_sym Hsent)).
      apply filter_In. split; [exact Hin|].
      destruct (String.eqb_spec X t); [congruence | reflexivity].
    + intros Hin. apply (Permutation_in _ Hsent) in Hin.
      apply filter_In in Hin. destruct Hin as [_ Hin].
      rewrite String.eqb_refl in Hin. discriminate.
    + intros t Hin. apply (Permutation_in _ Hfailed) in Hin.
      apply filter_In in Hin. destruct Hin as [_ Hin].
      symmetry. apply String.eqb_eq. exact Hin.
Qed.

End OneRefusal.

End Dispatcher.

(** ** The single-send operation and the HTTP handlers *)

Lemma store_bulk_failed (members : list (string * json.Value)) :
  fold_left json.store_bulk_member members None = None.
Proof. induction members as [|kv members IH]; simpl; auto. Qed.

Lemma store_single_failed (members : list (string * json.Value)) :
  fold_left json.store_single_member members None = None.
Proof. induction members as [|kv members IH]; simpl; auto. Qed.

(** An object in which every member that selects the field [to] is
    [null] leaves the slice nil. *)
Lemma null_recipients_stay_nil (members : list (string * json.Value))
      (t t' : json.BulkTarget) :
  (forall key v, In (key, v) members ->
                 json.selects key "to" = true -> v = json.JNull) ->
  json.to_slice t = json.nil_slice ->
  fold_left json.store_bulk_member members (Some t) = Some t' ->
  json.to_slice t' = json.nil_slice.
Proof.
  revert t; induction members as [|[key v] members IH]; simpl; intros t Hnull Hnil.
  - intros [= <-]. exact Hnil.
  - assert (forall key' v', In (key', v') members ->
                            json.selects key' "to" = true -> v' = json.JNull)
      as Hrest by eauto.
    destruct (json.selects key "to") eqn:Hto.
    + rewrite (Hnull key v (or_introl eq_refl) Hto). simpl.
      apply IH; auto.
    + destruct (json.selects key "message").
      * destruct (json.store_string v (json.message t)) as [m|].
        -- apply IH; auto.
        -- rewrite store_bulk_failed. discriminate.
      * apply IH; auto.
Qed.

(** An object in which every member for [to] is [null] and every member
    for [message] is a string or [null] is stored without error, and
    leaves the slice nil. *)
Lemma quiet_members_decode (members : list (string * json.Value))
      (t : json.BulkTarget) :
  json.to_slice t = json.nil_slice ->
  (forall key v, In (key, v) members ->
                 json.selects key "to" = true -> v = json.JNull) ->
  (forall key v, In (key, v) members ->
                 json.selects key "message" = true ->
                 v = json.JNull \/ exists m, v = json.JString m) ->
  exists t',
    fold_left json.store_bulk_member members (Some t) = Some t' /\
    json.to_slice t' = json.nil_slice.
Proof.
  revert t; induction members as [|[key v] members IH]; simpl;
    intros t Hnil Hnull Htext.
  - eauto.
  - assert (forall key' v', In (key', v') members ->
                            json.selects key' "to" = true -> v' = json.JNull)
      as Hnull' by eauto.
    assert (forall key' v', In (key', v') members ->
                            json.selects key' "message" = true ->
                            v' = json.JNull \/ exists m, v' = json.JString m)
      as Htext' by eauto.
    destruct (json.selects key "to") eqn:Hto.
    + rewrite (Hnull key v (or_introl eq_refl) Hto). simpl.
      apply IH; auto.
    + destruct (json.selects key "message") eqn:Hmessage.
      * destruct (Htext key v (or_introl eq_refl) Hmessage) as [->|[m ->]]; simpl;
          apply IH; auto.
      * apply IH; auto.
Qed.

Section Handlers.

Variables World ProviderError : Type.
Context {ProviderError_error : GoError ProviderError}.
Variable CreateMessage :
  openapi.CreateMessageParams -> World -> option ProviderError * World.
Variable twilioConfig : TwilioConfig.

Local Notation sendSMS := (sendSMS CreateMessage twilioConfig).
Local Notation sendBulkSMS := (sendBulkSMS CreateMessage twilioConfig).
Local Notation sendSMSHandler := (sendSMSHandler CreateMessage twilioConfig).
Local Notation sendBulkSMSHandler := (sendBulkSMSHandler CreateMessage twilioConfig).

(** C7.  [sendSMS] adds exactly one entry to the log of provider calls,
    the call for this recipient and message, and moves the provider by
    exactly one [CreateMessage]; it returns nil when the provider does,
    and for every provider error, of whatever kind, the same kind of
    error: the text "error al enviar SMS: " followed by the text of the
    provider's error. *)
Theorem sendSMS_calls_provider_once (to message : string) (e : Env World) :
  let p := sendSMS_params twilioConfig to message in
  let answer := CreateMessage p (world e) in
  calls (snd (sendSMS to message e)) = calls e ++ [p] /\
  world (snd (sendSMS to message e)) = snd answer /\
  logs (snd (sendSMS to message e)) = logs e /\
  fst (sendSMS to message e) =
    match fst answer with
    | None => None
    | Some err => Some ("error al enviar SMS: " ++ Error err)%string
    end /\
  (fst (sendSMS to message e) = None <-> fst answer = None).
Proof.
  unfold sendSMS, reply, issue. simpl.
  destruct (CreateMessage (sendSMS_params twilioConfig to message) (world e))
    as [[err|] w]; simpl; repeat split; auto; discriminate.
Qed.

Lemma decode_bulk_syntax_error : decode_bulk None = None.
Proof. reflexivity. Qed.

Lemma decode_single_syntax_error : json.decode_single None = None.
Proof. reflexivity. Qed.




End Handlers.

(** ** The program at work *)

Example one_by_one_run :
  Demo.sendBulkSMS (Demo.one_by_one 3) Demo.recipients3 Demo.env0
  = Some ({| Sent := ["+1"; "+1"]; Failed := ["+100"]; Total := 3 |},
          env Demo.finished).
Proof. vm_compute. reflexivity. Qed.

(** [Sent] and [Failed] are filled in the order in which the workers get
    the mutex: here the second worker runs before the first. *)
Example completion_order_shows :
  Demo.sendBulkSMS
    (repeat Main 5 ++ repeat (Worker 1) 8 ++ repeat (Worker 0) 8 ++ [Main])
    ["+1"; "+2"] Demo.env0
  = Some ({| Sent := ["+2"; "+1"]; Failed := []; Total := 2 |},
          {| world := 2;
             calls := [sendSMS_params Demo.config "+2" "hola";
                       sendSMS_params Demo.config "+1" "hola"];
             logs := [LogSendOk "+2"; LogSendOk "+1"] |}).
Proof. vm_compute. reflexivity. Qed.

(** With twelve recipients, ten workers wait for the provider at the
    same time, and the eleventh cannot get a slot. *)
Example ten_workers_in_flight :
  Demo.run Demo.ten_in_flight (start Demo.crowd Demo.env0) = Some Demo.saturated /\
  tally in_flight (workers Demo.saturated) = 10 /\
  semaphore Demo.saturated = 10 /\
  Demo.step (Worker 10) Demo.saturated = None /\
  Demo.step (Worker 11) Demo.saturated = None.
Proof. vm_compute. auto. Qed.

(** The two actions that make up the body of [sendSMS] in a worker are
    [sendSMS] when nothing happens in between. *)
Lemma worker_send_is_sendSMS (World ProviderError : Type) `{GoError ProviderError}
      (CreateMessage :
         openapi.CreateMessageParams -> World -> option ProviderError * World)
      (twilioConfig : TwilioConfig) (message : string)
      (s : State World) (i : nat) (g : Goroutine) :
  nth_error (workers s) i = Some g ->
  pc g = AtSend ->
  exists s',
    run CreateMessage twilioConfig message [Worker i; Worker i] s = Some s' /\
    env s' = snd (sendSMS CreateMessage twilioConfig (to g) message (env s)) /\
    workers s' =
    move i (AtLock (fst (sendSMS CreateMessage twilioConfig (to g) message (env s))))
         (workers s).
Proof.
  intros Hi Hpc. simpl. unfold step_worker at 1. rewrite Hi, Hpc.
  unfold step_worker, goto, set_workers, set_env, sendSMS, reply, issue; simpl.
  assert (nth_error
            (move i (InFlight (sendSMS_params twilioConfig (to g) message)) (workers s)) i
          = Some {| to := to g;
                    pc := InFlight (sendSMS_params twilioConfig (to g) message) |})
    as ->.
  { clear Hpc. revert i Hi. induction (workers s) as [|g0 ws IH]; intros [|i] Hi;
      simpl in *; try discriminate.
    - injection Hi as ->. reflexivity.
    - auto. }
  simpl.
  destruct (CreateMessage (sendSMS_params twilioConfig (to g) message) (world (env s)))
    as [r w].
  eexists. split; [reflexivity|]. simpl. split; [reflexivity|].
  clear. revert i. induction (workers s) as [|g0 ws IH]; intros [|i]; simpl; auto.
  rewrite IH. reflexivity.
Qed.

(** ** Instances of the claims *)

Lemma dispatch_result_is_complete_witness :
  Demo.run (Demo.one_by_one 3) (start Demo.recipients3 Demo.env0)
  = Some Demo.finished /\
  length (Sent (response Demo.finished)) + length (Failed (response Demo.finished))
  = Total (response Demo.finished).
Proof.
  assert (Demo.run (Demo.one_by_one 3) (start Demo.recipients3 Demo.env0)
          = Some Demo.finished) as Hrun by (vm_compute; reflexivity).
  split; [exact Hrun|].
  destruct (dispatch_result_is_complete Demo.CreateMessage Demo.config "hola"
              Demo.recipients3 Demo.env0 (Demo.one_by_one 3) Hrun) as [_ Hdone].
  destruct (Hdone (response Demo.finished) eq_refl) as [Hcount _].
  exact Hcount.
Defined.


Lemma demo_refuses_100 (t : string) (w : nat) :
  fst (Demo.CreateMessage (sendSMS_params Demo.config t "hola") w) <> None
  <-> t = "+100".
Proof.
  unfold Demo.CreateMessage. simpl.
  destruct (String.eqb_spec t "+100") as [->|Hne]; simpl; split;
    congruence.
Defined.

Lemma only_X_fails_witness :
  Demo.sendBulkSMS (Demo.one_by_one 3) Demo.recipients3 Demo.env0
  = Some (response Demo.finished, env Demo.finished) /\
  Permutation (Failed (response Demo.finished))
              (filter (fun t => ("+100" =? t)%string) Demo.recipients3).
Proof.
  assert (Demo.sendBulkSMS (Demo.one_by_one 3) Demo.recipients3 Demo.env0
          = Some (response Demo.finished, env Demo.finished)) as Hbulk
      by (vm_compute; reflexivity).
  split; [exact Hbulk|].
  destruct (only_X_fails Demo.CreateMessage Demo.config "hola" demo_refuses_100
              Demo.recipients3 Demo.env0) as [_ Hall].
  destruct (Hall _ _ _ Hbulk) as [Hfailed _].
  exact Hfailed.
Defined.

Lemma total_counts_every_occurrence_witness :
  Demo.sendBulkSMS (Demo.one_by_one 3) Demo.recipients3 Demo.env0
  = Some (response Demo.finished, env Demo.finished) /\
  Total (response Demo.finished) = 3.
Proof.
  assert (Demo.sendBulkSMS (Demo.one_by_one 3) Demo.recipients3 Demo.env0
          = Some (response Demo.finished, env Demo.finished)) as Hbulk
      by (vm_compute; reflexivity).
  split; [exact Hbulk|].
  destruct (total_counts_every_occurrence Demo.CreateMessage Demo.config "hola"
              Demo.recipients3 Demo.env0) as [_ Hall].
  destruct (Hall _ _ _ Hbulk) as [Htotal _].
  exact Htotal.
Defined.

Lemma empty_batch_witness :
  Demo.sendBulkSMS [Main; Main] [] Demo.env0
  = Some ({| Sent := []; Failed := []; Total := 0 |}, Demo.env0) /\
  [Main; Main] = [Main; Main] /\
  {| Sent := []; Failed := []; Total := 0 |}
  = {| Sent := []; Failed := []; Total := 0 |} /\
  Demo.env0 = Demo.env0.
Proof.
  assert (Demo.sendBulkSMS [Main; Main] [] Demo.env0
          = Some ({| Sent := []; Failed := []; Total := 0 |}, Demo.env0)) as Hbulk
      by (vm_compute; reflexivity).
  split; [exact Hbulk|].
  destruct (empty_batch Demo.CreateMessage Demo.config "hola" Demo.env0)
    as [_ Hall].
  exact (Hall _ _ _ Hbulk).
Defined.

Lemma sent_failed_partition_witness :
  Demo.sendBulkSMS (Demo.one_by_one 3) Demo.recipients3 Demo.env0
  = Some (response Demo.finished, env Demo.finished) /\
  Permutation (Sent (response Demo.finished) ++ Failed (response Demo.finished))
              Demo.recipients3.
Proof.
  assert (Demo.sendBulkSMS (Demo.one_by_one 3) Demo.recipients3 Demo.env0
          = Some (response Demo.finished, env Demo.finished)) as Hbulk
      by (vm_compute; reflexivity).
  split; [exact Hbulk|].
  destruct (sent_failed_partition Demo.CreateMessage Demo.config "hola"
              Demo.recipients3 Demo.env0) as [_ Hall].
  destruct (Hall _ _ _ Hbulk) as (errs & _ & _ & _ & Hperm).
  exact Hperm.
Defined.




Lemma no_recipients_members (key : string) (v : json.Value) :
  In (key, v) [("message", json.JString "hola")] ->
  json.selects key "to" = true ->
  v = json.JNull.
Proof.
  intros [[= <- <-]|[]]. vm_compute. discriminate.
Defined.

Lemma no_recipients_text (key : string) (v : json.Value) :
  In (key, v) [("message", json.JString "hola")] ->
  json.selects key "message" = true ->
  v = json.JNull \/ exists m, v = json.JString m.
Proof.
  intros [[= <- <-]|[]] _. right. exists "hola". reflexivity.
Defined.



Example single_send_refused :
  Demo.sendSMSHandler
    (Demo.post (json.JObject [("to", json.JString "+100");
                              ("message", json.JString "hola")])) Demo.env0
  = (http_Error "Error al enviar SMS: error al enviar SMS: invalid phone number"
       StatusInternalServerError,
     {| world := 0;
        calls := [sendSMS_params Demo.config "+100" "hola"];
        logs := [] |}).
Proof. vm_compute. reflexivity. Qed.

Example single_send_accepted :
  Demo.sendSMSHandler
    (Demo.post (json.JObject [("to", json.JString "+1");
                              ("message", json.JString "hola")])) Demo.env0
  = (write_json (JSONMap [("message", "SMS enviado correctamente");
                          ("status", "success"); ("to", "+1")]),
     {| world := 1;
        calls := [sendSMS_params Demo.config "+1" "hola"];
        logs := [] |}).
Proof. vm_compute. reflexivity. Qed.

(** * Further properties of the program *)

(** ** More about lists of workers *)

Lemma tally_unique (f : WorkerPc -> bool) (ws : list Goroutine)
      (i j : nat) (g h : Goroutine) :
  tally f ws <= 1 ->
  nth_error ws i = Some g ->
  nth_error ws j = Some h ->
  f (pc g) = true ->
  f (pc h) = true ->
  i = j.
Proof.
  revert i j; induction ws as [|g0 ws IH]; intros [|i] [|j]; simpl;
    try discriminate; intros Hle Hi Hj Hg Hh.
  - reflexivity.
  - injection Hi as ->. rewrite Hg in Hle.
    pose proof (tally_member f ws j Hj Hh). lia.
  - injection Hj as ->. rewrite Hh in Hle.
    pose proof (tally_member f ws i Hi Hg). lia.
  - f_equal. apply IH; auto. destruct (f (pc g0)); lia.
Qed.

Lemma length_select (f : WorkerPc -> bool) (ws : list Goroutine) :
  length (select f ws) = tally f ws.
Proof.
  induction ws as [|g ws IH]; simpl; [reflexivity|].
  destruct (f (pc g)); simpl; rewrite IH; reflexivity.
Qed.

Lemma select_In (f : WorkerPc -> bool) (ws : list Goroutine) (t : string) :
  In t (select f ws) -> In t (map to ws).
Proof.
  induction ws as [|g ws IH]; simpl; [auto|].
  destruct (f (pc g)); simpl; tauto.
Qed.

Lemma select_split (f : WorkerPc -> bool) (ws : list Goroutine) :
  Permutation (map to ws) (select f ws ++ select (fun p => negb (f p)) ws).
Proof.
  induction ws as [|g ws IH]; simpl; [constructor|].
  destruct (f (pc g)); simpl.
  - constructor. exact IH.
  - apply Permutation_cons_app. exact IH.
Qed.

Lemma recorded_at_most_once (ws : list Goroutine) :
  tally recorded_sent ws + tally recorded_failed ws <= length ws.
Proof.
  induction ws as [|g ws IH]; simpl; [lia|].
  destruct (pc g) as [| |p|err|err|[?|]|[?|]|[?|]|[?|]]; simpl; lia.
Qed.

Lemma recorded_all (ws : list Goroutine) :
  tally running ws = 0 ->
  tally recorded_sent ws + tally recorded_failed ws = length ws.
Proof.
  induction ws as [|g ws IH]; simpl; [lia|].
  destruct (pc g) as [| |p|err|err|err|err|err|[?|]]; simpl; try discriminate;
    intros Hz; rewrite <- (IH Hz); lia.
Qed.

Lemma work_left_exited (ws : list Goroutine) :
  tally running ws = 0 ->
  work_left ws = 0.
Proof.
  induction ws as [|g ws IH]; simpl; [reflexivity|].
  destruct (pc g); simpl; try discriminate. exact IH.
Qed.

Lemma nth_error_exited (ws : list Goroutine) (i : nat) (g : Goroutine) :
  tally running ws = 0 ->
  nth_error ws i = Some g ->
  exists err, pc g = Exited err.
Proof.
  intros Hz Hi. pose proof (nth_error_tally_zero running ws i Hz Hi) as Hg.
  destruct (pc g); try discriminate. eauto.
Qed.

Lemma logged_sent_app (l1 l2 : list LogEntry) :
  logged_sent (l1 ++ l2) = logged_sent l1 ++ logged_sent l2.
Proof.
  induction l1 as [|[t text|t] l1 IH]; simpl; rewrite ?IH; reflexivity.
Qed.

Lemma logged_failed_app (l1 l2 : list LogEntry) :
  logged_failed (l1 ++ l2) = logged_failed l1 ++ logged_failed l2.
Proof.
  induction l1 as [|[t text|t] l1 IH]; simpl; rewrite ?IH; reflexivity.
Qed.

Lemma length_logged (l : list LogEntry) :
  length l = length (logged_sent l) + length (logged_failed l).
Proof.
  induction l as [|[t text|t] l IH]; simpl; lia.
Qed.

Lemma outcomes_app (ws1 ws2 : list Goroutine) :
  outcomes (ws1 ++ ws2) = outcomes ws1 ++ outcomes ws2.
Proof.
  induction ws1 as [|g ws1 IH]; simpl; [reflexivity|].
  destruct (outcome (pc g)); simpl; rewrite IH; reflexivity.
Qed.

Lemma outcomes_move_same (i : nat) (p : WorkerPc) (ws : list Goroutine) (g : Goroutine) :
  nth_error ws i = Some g ->
  outcome (pc g) = outcome p ->
  outcomes (move i p ws) = outcomes ws.
Proof.
  revert i; induction ws as [|g0 ws IH]; intros [|i] Hi Ho; simpl in *;
    try discriminate.
  - injection Hi as ->. rewrite Ho. reflexivity.
  - rewrite (IH i Hi Ho). reflexivity.
Qed.

Lemma outcomes_move_new (i : nat) (p : WorkerPc) (ws : list Goroutine)
      (g : Goroutine) (err : error) :
  nth_error ws i = Some g ->
  outcome (pc g) = None ->
  outcome p = Some err ->
  Permutation (outcomes ws ++ [(to g, err)]) (outcomes (move i p ws)).
Proof.
  revert i; induction ws as [|g0 ws IH]; intros [|i] Hi Hg Hp; simpl in *;
    try discriminate.
  - injection Hi as ->. rewrite Hg, Hp.
    apply Permutation_sym, Permutation_cons_append.
  - destruct (outcome (pc g0)); simpl; auto using Permutation_cons.
Qed.

Lemma outcomes_exited (ws : list Goroutine) :
  tally running ws = 0 ->
  outcomes ws = combine (map to ws) (verdicts ws).
Proof.
  induction ws as [|g ws IH]; simpl; [reflexivity|].
  destruct (pc g); simpl; try discriminate.
  intros Hz. rewrite (IH Hz). reflexivity.
Qed.

Lemma combine_snoc (A B : Type) (l : list A) (l' : list B) (a : A) (b : B) :
  length l = length l' ->
  combine (l ++ [a]) (l' ++ [b]) = combine l l' ++ [(a, b)].
Proof.
  revert l'; induction l as [|x l IH]; intros [|y l']; simpl;
    try discriminate; [reflexivity|].
  intros [= Hlen]. rewrite (IH l' Hlen). reflexivity.
Qed.

Lemma map_fst_combine (A B : Type) (l : list A) (l' : list B) :
  length l = length l' ->
  map fst (combine l l') = l.
Proof.
  revert l'; induction l as [|x l IH]; intros [|y l']; simpl;
    try discriminate; [reflexivity|].
  intros [= Hlen]. rewrite (IH l' Hlen). reflexivity.
Qed.

Lemma successes_combine (recipients : list string) (errs : list error) :
  successes recipients errs
  = map fst (filter (fun x => is_nil (snd x)) (combine recipients errs)).
Proof.
  revert errs; induction recipients as [|t recipients IH]; intros [|e errs];
    simpl; try reflexivity.
  destruct (is_nil e); simpl; rewrite IH; reflexivity.
Qed.

Lemma failures_combine (recipients : list string) (errs : list error) :
  failures recipients errs
  = map fst (filter (fun x => negb (is_nil (snd x))) (combine recipients errs)).
Proof.
  revert errs; induction recipients as [|t recipients IH]; intros [|e errs];
    simpl; try reflexivity.
  destruct (is_nil e); simpl; rewrite IH; reflexivity.
Qed.

Lemma Permutation_filter_both (A : Type) (f : A -> bool) (l l' : list A) :
  Permutation l l' ->
  Permutation (filter f l) (filter f l').
Proof.
  induction 1 as [|x l l' _ IH|x y l|l l' l'' _ IH1 _ IH2]; simpl.
  - constructor.
  - destruct (f x); auto.
  - destruct (f x), (f y); auto using perm_swap.
  - eauto using Permutation_trans.
Qed.

Section DispatcherFacts.

Variables World ProviderError : Type.
Context {ProviderError_error : GoError ProviderError}.
Variable CreateMessage :
  openapi.CreateMessageParams -> World -> option ProviderError * World.
Variable twilioConfig : TwilioConfig.
Variable message : string.

Local Notation step := (step CreateMessage twilioConfig message).
Local Notation step_worker := (step_worker CreateMessage twilioConfig message).
Local Notation run := (run CreateMessage twilioConfig message).
Local Notation Inv := (Inv CreateMessage twilioConfig message).
Local Notation coherent := (coherent CreateMessage twilioConfig message).
Local Notation justified := (justified CreateMessage twilioConfig message).
Local Notation Completed := (Completed CreateMessage twilioConfig message).
Local Notation sendBulkSMS := (sendBulkSMS CreateMessage twilioConfig message).
Local Notation sendSMS := (sendSMS CreateMessage twilioConfig).
Local Notation send_all := (send_all CreateMessage twilioConfig message).
Local Notation Answered := (Answered CreateMessage twilioConfig message).
Local Notation params := (fun t => sendSMS_params twilioConfig t message).

(** X1.  Mutual exclusion: in every state of every execution at most one
    worker is between [mu.Lock()] and [mu.Unlock()], the mutex is locked
    exactly when there is one, and a worker that holds the mutex is not
    inside its provider call. *)
Theorem mutex_held_by_at_most_one (recipients : list string) (e : Env World)
        (sched : list tid) (s : State World) :
  run sched (start recipients e) = Some s ->
  tally holds_mu (workers s) <= 1 /\
  (mu s = true <-> tally holds_mu (workers s) = 1) /\
  (forall i j g h,
      nth_error (workers s) i = Some g ->
      nth_error (workers s) j = Some h ->
      holds_mu (pc g) = true ->
      holds_mu (pc h) = true ->
      i = j) /\
  (forall i g,
      nth_error (workers s) i = Some g ->
      holds_mu (pc g) = true ->
      in_flight (pc g) = false /\ mu s = true).
Proof.
  intros Hrun. pose proof (Inv_reachable _ _ _ _ _ _ Hrun) as HI.
  pose proof (inv_mu HI) as Hmu.
  assert (tally holds_mu (workers s) <= 1) as Hle by (destruct (mu s); lia).
  split; [exact Hle|]. split; [|split].
  - destruct (mu s); split; intros; try lia; try discriminate; reflexivity.
  - intros i j g h Hi Hj Hg Hh. exact (tally_unique holds_mu _ _ _ Hle Hi Hj Hg Hh).
  - intros i g Hi Hg. split.
    + destruct (pc g); simpl in *; congruence.
    + pose proof (tally_member holds_mu _ _ Hi Hg). destruct (mu s); [reflexivity|lia].
Qed.

(** X2.  The synchronisation never goes wrong: in every state of every
    execution a worker about to unlock finds the mutex locked, a worker
    about to receive from [semaphore] finds an element in it, a worker
    about to call [wg.Done()] finds a positive counter, and every worker
    that is not waiting for a slot or for the mutex can take its next
    action. *)
Theorem synchronisation_never_fails (recipients : list string) (e : Env World)
        (sched : list tid) (s : State World) (i : nat) (g : Goroutine) :
  run sched (start recipients e) = Some s ->
  nth_error (workers s) i = Some g ->
  (forall err, pc g = AtUnlock err -> mu s = true) /\
  (forall err, pc g = AtRelease err -> 0 < semaphore s) /\
  (forall err, pc g = AtDone err -> 0 < wg s) /\
  (unhindered (pc g) = true -> exists s', step (Worker i) s = Some s').
Proof.
  intros Hrun Hi. pose proof (Inv_reachable _ _ _ _ _ _ Hrun) as HI.
  split; [|split; [|split]].
  - intros err Hpc.
    assert (0 < tally holds_mu (workers s)) as Hpos.
    { apply (tally_member holds_mu _ _ Hi). rewrite Hpc. reflexivity. }
    pose proof (inv_mu HI). destruct (mu s); [reflexivity|lia].
  - intros err Hpc.
    assert (0 < tally holds_slot (workers s)) as Hpos.
    { apply (tally_member holds_slot _ _ Hi). rewrite Hpc. reflexivity. }
    pose proof (inv_semaphore HI). lia.
  - intros err Hpc.
    assert (0 < tally running (workers s)) as Hpos.
    { apply (tally_member running _ _ Hi). rewrite Hpc. reflexivity. }
    pose proof (inv_wg HI). lia.
  - intros Hu. exact (unhindered_moves i HI Hi Hu).
Qed.

(** X3.  Every execution of a call with [n] recipients is at most
    [10 * n + 2] actions long, and the executions that return to the
    caller are exactly that long. *)
Theorem execution_length (recipients : list string) (e : Env World)
        (sched : list tid) (s : State World) :
  run sched (start recipients e) = Some s ->
  length sched <= 10 * length recipients + 2 /\
  (forall result, main s = Returned result ->
                  length sched = 10 * length recipients + 2).
Proof.
  intros Hrun. pose proof (potential_run _ _ _ _ _ Hrun) as Hpot.
  unfold potential at 1 in Hpot. simpl in Hpot. split; [lia|].
  intros result Hmain.
  pose proof (returned_completed _ _ _ _ _ _ Hrun Hmain) as C.
  unfold potential in Hpot. rewrite Hmain, (work_left_exited _ (done_exited C)) in Hpot.
  lia.
Qed.

(** X4.  When the caller has its result nothing is left behind: no
    goroutine of the call can take another action, the mutex is
    unlocked, the channel is empty and the WaitGroup counter is 0. *)
Theorem nothing_runs_after_return (recipients : list string) (e : Env World)
        (sched : list tid) (s : State World) (result : SMSResponse) :
  run sched (start recipients e) = Some s ->
  main s = Returned result ->
  (forall t, step t s = None) /\
  mu s = false /\ semaphore s = 0 /\ wg s = 0.
Proof.
  intros Hrun Hmain.
  pose proof (returned_completed _ _ _ _ _ _ Hrun Hmain) as C.
  split; [|split; [apply (done_mu C) | split;
                   [apply (done_semaphore C) | apply (done_wg C)]]].
  intros [|i]; simpl.
  - unfold step_main. rewrite Hmain. reflexivity.
  - unfold step_worker.
    destruct (nth_error (workers s) i) as [g|] eqn:Hi; [|reflexivity].
    destruct (nth_error_exited _ _ (done_exited C) Hi) as [err ->]. reflexivity.
Qed.

Lemma range_loop (rest : list string) (s : State World) :
  main s = AtRange rest ->
  exists s',
    run (repeat Main (2 * length rest + 1)) s = Some s' /\
    main s' = AtWait /\
    workers s' = workers s ++ map (fun t => {| to := t; pc := AtAcquire |}) rest /\
    wg s' = wg s + length rest /\
    semaphore s' = semaphore s /\
    mu s' = mu s /\
    response s' = response s /\
    env s' = env s.
Proof.
  revert s; induction rest as [|recipient rest IH]; intros s Hmain.
  - exists (set_main AtWait s). simpl. unfold step_main. rewrite Hmain. simpl.
    rewrite app_nil_r. repeat split; auto.
  - replace (2 * length (recipient :: rest) + 1)
      with (S (S (2 * length rest + 1))) by (simpl; lia).
    change (repeat Main (S (S (2 * length rest + 1))))
      with (Main :: Main :: repeat Main (2 * length rest + 1)).
    set (s1 := set_main (AtGo recipient rest) (set_wg (S (wg s)) s)).
    set (s2 := set_main (AtRange rest)
                 (set_workers (workers s1 ++ [{| to := recipient; pc := AtAcquire |}]) s1)).
    destruct (IH s2 eq_refl) as (s' & Hrun & Hm & Hw & Hwg & Hsem & Hmu & Hresp & Henv).
    exists s'. split.
    + simpl. unfold step_main at 1. rewrite Hmain. simpl. exact Hrun.
    + split; [exact Hm|]. split.
      * rewrite Hw. simpl. rewrite <- app_assoc. reflexivity.
      * rewrite Hwg, Hsem, Hmu, Hresp, Henv. simpl. repeat split; auto; lia.
Qed.

(** X5.  The semaphore holds up workers, never the caller: whatever the
    number [n] of recipients, also far beyond the capacity of the
    channel, the caller can run its whole range loop in [2 * n + 1]
    actions of its own; it then waits in [wg.Wait()] with one worker per
    recipient started, in input order, none of which has moved. *)
Theorem caller_starts_all_workers (recipients : list string) (e : Env World) :
  exists s,
    run (repeat Main (2 * length recipients + 1)) (start recipients e) = Some s /\
    main s = AtWait /\
    workers s = map (fun t => {| to := t; pc := AtAcquire |}) recipients /\
    wg s = length recipients /\
    semaphore s = 0 /\
    env s = e.
Proof.
  destruct (range_loop (rest := recipients) (start recipients e) eq_refl)
    as (s & Hrun & Hm & Hw & Hwg & Hsem & _ & _ & Henv).
  exists s. simpl in *. repeat split; auto.
Qed.

(** X6.  While the call is running the response is never ahead of the
    work done: in every state of every execution [Total] is already the
    number of recipients, and [len(Sent) + len(Failed)] is at most the
    number of workers started so far, hence at most [Total]. *)
Theorem recorded_never_exceeds_total (recipients : list string) (e : Env World)
        (sched : list tid) (s : State World) :
  run sched (start recipients e) = Some s ->
  Total (response s) = length recipients /\
  length (Sent (response s)) + length (Failed (response s)) <= length (workers s) /\
  length (workers s) <= length recipients /\
  length (Sent (response s)) + length (Failed (response s)) <= Total (response s).
Proof.
  intros Hrun. pose proof (Inv_reachable _ _ _ _ _ _ Hrun) as HI.
  pose proof (inv_total HI) as Htot.
  assert (length (workers s) <= length recipients) as Hws.
  { rewrite <- (inv_spawned HI), length_app, length_map. lia. }
  assert (length (Sent (response s)) + length (Failed (response s))
          <= length (workers s)) as Hrec.
  { rewrite (Permutation_length (inv_sent HI)), (Permutation_length (inv_failed HI)).
    rewrite !length_select. apply recorded_at_most_once. }
  repeat split; auto; lia.
Qed.

(** X7.  In every state of every execution the provider calls made so
    far by the call are one call each for a part [called] of the
    recipient list, counted with multiplicity: the list splits into
    [called] and the occurrences [waiting] that have not been called
    for, so that no occurrence is sent to twice.  Each call has the
    configured sender as [From] and the request's message as [Body]. *)
Theorem calls_are_for_recipients (recipients : list string) (e : Env World)
        (sched : list tid) (s : State World) :
  run sched (start recipients e) = Some s ->
  exists new called waiting,
    calls (env s) = calls e ++ new /\
    Permutation recipients (called ++ waiting) /\
    Permutation new (map params called) /\
    length new <= length recipients /\
    forall p, In p new ->
      exists t,
        In t recipients /\
        openapi.To p = Some t /\
        openapi.From p = Some (FromPhone twilioConfig) /\
        openapi.Body p = Some message.
Proof.
  intros Hrun. pose proof (Inv_reachable _ _ _ _ _ _ Hrun) as HI.
  destruct (inv_calls HI) as (new & Hnew & Hperm).
  exists new, (select issued (workers s)),
    (select (fun p => negb (issued p)) (workers s) ++ pending (main s)).
  split; [exact Hnew|]. split; [|split; [exact Hperm|split]].
  - rewrite <- (inv_spawned HI), app_assoc.
    apply Permutation_app_tail, select_split.
  - rewrite (Permutation_length Hperm), length_map, length_select.
    pose proof (tally_le_length issued (workers s)) as Hle.
    rewrite <- (inv_spawned HI), length_app, length_map. lia.
  - intros p Hp. apply (Permutation_in _ Hperm) in Hp.
    apply in_map_iff in Hp. destruct Hp as (t & <- & Ht).
    exists t. split; [|simpl; auto].
    rewrite <- (inv_spawned HI). apply in_or_app. left.
    apply (select_In _ _ _ Ht).
Qed.

(** *** A provider whose verdict does not depend on its state *)

Section Stateless.

Variable accepts : string -> bool.
Hypothesis verdict :
  forall t w,
    fst (CreateMessage (sendSMS_params twilioConfig t message) w) = None
    <-> accepts t = true.

Lemma justified_verdict (t : string) (err : error) :
  justified t err ->
  is_nil err = accepts t.
Proof.
  intros [w ->]. pose proof (verdict t w) as Hv.
  destruct (fst (CreateMessage (params t) w)) as [perr|]; simpl.
  - destruct (accepts t); [|reflexivity].
    destruct Hv as [_ Hv]. discriminate (Hv eq_refl).
  - destruct Hv as [Hv _]. rewrite (Hv eq_refl). reflexivity.
Qed.

Lemma verdicts_stateless (recipients : list string) (errs : list error) :
  Forall2 justified recipients errs ->
  successes recipients errs = filter accepts recipients /\
  failures recipients errs = filter (fun t => negb (accepts t)) recipients.
Proof.
  induction 1 as [|t err recipients errs Hj _ [IHs IHf]]; simpl; [auto|].
  rewrite (justified_verdict Hj), IHs, IHf.
  destruct (accepts t); simpl; auto.
Qed.

(** X8.  When the provider's verdict on a recipient is the same in every
    state, the result does not depend on the schedule except for the
    order inside the two slices: [Sent] is a permutation of the accepted
    elements of the recipient list and [Failed] of the refused ones, so
    any two executions return the same [Sent] and the same [Failed] up
    to order. *)
Theorem result_independent_of_schedule (recipients : list string) (e : Env World)
        (sched1 sched2 : list tid) (result1 result2 : SMSResponse)
        (e1 e2 : Env World) :
  sendBulkSMS sched1 recipients e = Some (result1, e1) ->
  sendBulkSMS sched2 recipients e = Some (result2, e2) ->
  Permutation (Sent result1) (filter accepts recipients) /\
  Permutation (Failed result1) (filter (fun t => negb (accepts t)) recipients) /\
  Permutation (Sent result1) (Sent result2) /\
  Permutation (Failed result1) (Failed result2) /\
  Total result1 = Total result2.
Proof.
  intros H1 H2.
  destruct (sendBulkSMS_completed _ _ _ _ _ _ H1) as (s1 & _ & _ & C1).
  destruct (sendBulkSMS_completed _ _ _ _ _ _ H2) as (s2 & _ & _ & C2).
  destruct (verdicts_stateless (done_justified C1)) as [Hs1 Hf1].
  destruct (verdicts_stateless (done_justified C2)) as [Hs2 Hf2].
  pose proof (done_sent C1) as Sent1. rewrite Hs1 in Sent1.
  pose proof (done_failed C1) as Failed1. rewrite Hf1 in Failed1.
  pose proof (done_sent C2) as Sent2. rewrite Hs2 in Sent2.
  pose proof (done_failed C2) as Failed2. rewrite Hf2 in Failed2.
  split; [exact Sent1|]. split; [exact Failed1|].
  split; [rewrite Sent1, Sent2; reflexivity|].
  split; [rewrite Failed1, Failed2; reflexivity|].
  rewrite (done_total C1), (done_total C2). reflexivity.
Qed.

End Stateless.

(** *** The log *)

Local Notation Logged := (Logged CreateMessage twilioConfig message).

Lemma Logged_same (e0 : Env World) (s s' : State World) :
  logs (env s') = logs (env s) ->
  response s' = response s ->
  Logged e0 s ->
  Logged e0 s'.
Proof.
  intros Hl Hr (new & Hnew & Hs & Hf & Hj). exists new.
  rewrite Hl, Hr. auto.
Qed.

Lemma Logged_step (recipients : list string) (e0 : Env World)
      (t : tid) (s s' : State World) :
  Inv recipients e0 s ->
  Logged e0 s ->
  step t s = Some s' ->
  Logged e0 s'.
Proof.
  intros HI HL. destruct t as [|i]; simpl.
  - unfold step_main.
    destruct (main s) as [[|recipient rest]|recipient rest| |result];
      try discriminate; try (destruct (wg s); [|discriminate]);
      intros [= <-]; apply (Logged_same (s := s)); auto.
  - unfold step_worker.
    destruct (nth_error (workers s) i) as [g|] eqn:Hi; [|discriminate].
    assert (Hcg : coherent g).
    { pose proof (inv_coherent HI) as Hcoh. rewrite Forall_forall in Hcoh.
      apply Hcoh. eapply nth_error_In; eauto. }
    destruct (pc g) as [| |p|err|err|err|err|err|err] eqn:Hpc.
    + destruct (semaphore s <? capacity)%nat; [|discriminate].
      intros [= <-]; apply (Logged_same (s := s)); auto.
    + intros [= <-]; apply (Logged_same (s := s)); auto.
    + unfold reply. destruct (CreateMessage p (world (env s))) as [r w].
      intros [= <-]; apply (Logged_same (s := s)); auto.
    + destruct (mu s); [discriminate|].
      intros [= <-]; apply (Logged_same (s := s)); auto.
    + intros [= <-]. destruct HL as (new & Hnew & Hs & Hf & Hj).
      unfold coherent in Hcg. rewrite Hpc in Hcg. simpl in Hcg.
      destruct err as [text|]; simpl.
      * exists (new ++ [LogSendError (to g) text]). simpl.
        rewrite Hnew, app_assoc, logged_sent_app, logged_failed_app, map_app.
        simpl. rewrite app_nil_r, Hs, Hf.
        repeat split; auto. apply Forall_app. split; [exact Hj|].
        constructor; [exact Hcg | constructor].
      * exists (new ++ [LogSendOk (to g)]). simpl.
        rewrite Hnew, app_assoc, logged_sent_app, logged_failed_app.
        simpl. rewrite app_nil_r, Hs, Hf. repeat split; auto.
    + destruct (mu s); [|discriminate].
      intros [= <-]; apply (Logged_same (s := s)); auto.
    + destruct (semaphore s); [discriminate|].
      intros [= <-]; apply (Logged_same (s := s)); auto.
    + destruct (wg s); [discriminate|].
      intros [= <-]; apply (Logged_same (s := s)); auto.
    + discriminate.
Qed.

Lemma Logged_run (recipients : list string) (e0 : Env World)
      (sched : list tid) (s s' : State World) :
  Inv recipients e0 s ->
  Logged e0 s ->
  run sched s = Some s' ->
  Logged e0 s'.
Proof.
  revert s; induction sched as [|t sched IH]; simpl; intros s HI HL Hrun.
  - injection Hrun as <-. exact HL.
  - destruct (step t s) as [s1|] eqn:Hstep; [|discriminate].
    apply (IH s1); eauto using Inv_step, Logged_step.
Qed.

(** X9.  The log tells the same story as the response.  In every state
    of every execution the lines written since the call started are, in
    order, one success line per element of [Sent] and one failure line
    per element of [Failed], each failure line with an error that
    [sendSMS] returns for its recipient; when the caller has its result
    there is exactly one line per recipient. *)
Theorem log_matches_response (recipients : list string) (e : Env World)
        (sched : list tid) (s : State World) :
  run sched (start recipients e) = Some s ->
  exists new,
    logs (env s) = logs e ++ new /\
    logged_sent new = Sent (response s) /\
    map fst (logged_failed new) = Failed (response s) /\
    Forall (fun line => justified (fst line) (Some (snd line))) (logged_failed new) /\
    (forall result, main s = Returned result -> length new = length recipients).
Proof.
  intros Hrun.
  assert (Logged e (start recipients e)) as HL0.
  { exists []. simpl. rewrite app_nil_r. auto. }
  destruct (Logged_run _ (Inv_start CreateMessage twilioConfig message recipients e)
              HL0 Hrun)
    as (new & Hnew & Hs & Hf & Hj).
  exists new. repeat split; auto.
  intros result Hmain.
  pose proof (returned_completed _ _ _ _ _ _ Hrun Hmain) as C.
  rewrite length_logged, Hs, <- (length_map fst (logged_failed new)), Hf.
  rewrite <- (done_result C), (completed_count C). apply (done_total C).
Qed.

(** *** Every execution is a sequence of sends *)

Lemma sendSMS_effect (t : string) (e : Env World) :
  sendSMS t message e
  = (sendSMS_result (fst (CreateMessage (params t) (world e))),
     {| world := snd (CreateMessage (params t) (world e));
        calls := calls e ++ [params t];
        logs := logs e |}).
Proof.
  unfold sendSMS, reply, issue. simpl.
  destruct (CreateMessage (sendSMS_params twilioConfig t message) (world e)).
  reflexivity.
Qed.

Lemma send_all_length (order : list string) (e : Env World) :
  length (fst (send_all order e)) = length order.
Proof.
  revert e; induction order as [|t order IH]; intros e; simpl; [reflexivity|].
  destruct (sendSMS t message e) as [err e1].
  specialize (IH e1). destruct (send_all order e1). simpl in *. lia.
Qed.

Lemma send_all_env (order : list string) (e : Env World) :
  calls (snd (send_all order e)) = calls e ++ map params order /\
  logs (snd (send_all order e)) = logs e.
Proof.
  revert e; induction order as [|t order IH]; intros e; simpl.
  - rewrite app_nil_r. auto.
  - rewrite sendSMS_effect.
    match goal with |- context [send_all order ?e1] => specialize (IH e1) end.
    destruct (send_all order _) as [errs e2]. simpl in *.
    destruct IH as [-> ->]. rewrite <- app_assoc. auto.
Qed.

Lemma send_all_snoc (order : list string) (t : string) (e : Env World) :
  send_all (order ++ [t]) e
  = (fst (send_all order e) ++ [fst (sendSMS t message (snd (send_all order e)))],
     snd (sendSMS t message (snd (send_all order e)))).
Proof.
  revert e; induction order as [|t0 order IH]; intros e; simpl.
  - destruct (sendSMS t message e). reflexivity.
  - destruct (sendSMS t0 message e) as [err e1]. rewrite (IH e1).
    destruct (send_all order e1). reflexivity.
Qed.

Lemma Answered_same (e0 : Env World) (s s' : State World) (order : list string) :
  world (env s') = world (env s) ->
  outcomes (workers s') = outcomes (workers s) ->
  Answered e0 s order ->
  Answered e0 s' order.
Proof.
  intros Hw Ho [Hworld Hperm]. split; [rewrite Hw | rewrite Ho]; assumption.
Qed.

Lemma Answered_step (recipients : list string) (e0 : Env World)
      (t : tid) (s s' : State World) (order : list string) :
  Inv recipients e0 s ->
  Answered e0 s order ->
  step t s = Some s' ->
  exists order', Answered e0 s' order'.
Proof.
  intros HI HA. destruct t as [|i]; simpl.
  - unfold step_main.
    destruct (main s) as [[|recipient rest]|recipient rest| |result];
      try discriminate; try (destruct (wg s); [|discriminate]);
      intros [= <-]; exists order; apply (Answered_same (s := s)); auto.
    simpl. rewrite outcomes_app. simpl. apply app_nil_r.
  - unfold step_worker.
    destruct (nth_error (workers s) i) as [g|] eqn:Hi; [|discriminate].
    assert (Hcg : coherent g).
    { pose proof (inv_coherent HI) as Hcoh. rewrite Forall_forall in Hcoh.
      apply Hcoh. eapply nth_error_In; eauto. }
    unfold coherent in Hcg.
    destruct (pc g) as [| |p|err|err|err|err|err|err] eqn:Hpc.
    + destruct (semaphore s <? capacity)%nat; [|discriminate].
      intros [= <-]; exists order; apply (Answered_same (s := s)); auto.
      simpl. apply (outcomes_move_same _ _ _ Hi). rewrite Hpc. reflexivity.
    + intros [= <-]; exists order; apply (Answered_same (s := s)); auto.
      simpl. apply (outcomes_move_same _ _ _ Hi). rewrite Hpc. reflexivity.
    + simpl in Hcg. subst p. unfold reply.
      destruct (CreateMessage (params (to g)) (world (env s))) as [r w] eqn:Hreply.
      intros [= <-]. exists (order ++ [to g]).
      destruct HA as [Hworld Hperm]. unfold Answered.
      rewrite send_all_snoc, sendSMS_effect. simpl.
      rewrite <- Hworld, Hreply. simpl. split; [reflexivity|].
      rewrite combine_snoc by (rewrite send_all_length; reflexivity).
      rewrite <- (outcomes_move_new i (AtLock (sendSMS_result r)) (workers s)
                    (err := sendSMS_result r) Hi)
        by (rewrite ?Hpc; reflexivity).
      apply Permutation_app_tail. exact Hperm.
    + destruct (mu s); [discriminate|].
      intros [= <-]; exists order; apply (Answered_same (s := s)); auto.
      simpl. apply (outcomes_move_same _ _ _ Hi). rewrite Hpc. reflexivity.
    + intros [= <-]; exists order; apply (Answered_same (s := s)).
      * destruct err; reflexivity.
      * destruct err; simpl; apply (outcomes_move_same _ _ _ Hi);
          rewrite Hpc; reflexivity.
      * exact HA.
    + destruct (mu s); [|discriminate].
      intros [= <-]; exists order; apply (Answered_same (s := s)); auto.
      simpl. apply (outcomes_move_same _ _ _ Hi). rewrite Hpc. reflexivity.
    + destruct (semaphore s); [discriminate|].
      intros [= <-]; exists order; apply (Answered_same (s := s)); auto.
      simpl. apply (outcomes_move_same _ _ _ Hi). rewrite Hpc. reflexivity.
    + destruct (wg s); [discriminate|].
      intros [= <-]; exists order; apply (Answered_same (s := s)); auto.
      simpl. apply (outcomes_move_same _ _ _ Hi). rewrite Hpc. reflexivity.
    + discriminate.
Qed.

Lemma Answered_run (recipients : list string) (e0 : Env World)
      (sched : list tid) (s s' : State World) (order : list string) :
  Inv recipients e0 s ->
  Answered e0 s order ->
  run sched s = Some s' ->
  exists order', Answered e0 s' order'.
Proof.
  revert s order; induction sched as [|t sched IH]; simpl; intros s order HI HA Hrun.
  - injection Hrun as <-. eauto.
  - destruct (step t s) as [s1|] eqn:Hstep; [|discriminate].
    destruct (Answered_step _ HI HA Hstep) as [order1 HA1].
    apply (IH s1 order1); eauto using Inv_step.
Qed.

Lemma serial_order (sched : list tid) (recipients : list string)
      (e e' : Env World) (result : SMSResponse) :
  sendBulkSMS sched recipients e = Some (result, e') ->
  exists order,
    Permutation order recipients /\
    world e' = world (snd (send_all order e)) /\
    Permutation (Sent result) (successes order (fst (send_all order e))) /\
    Permutation (Failed result) (failures order (fst (send_all order e))) /\
    Total result = length recipients /\
    exists new,
      calls e' = calls e ++ new /\ Permutation new (map params recipients).
Proof.
  intros Hbulk.
  destruct (sendBulkSMS_completed _ _ _ _ _ _ Hbulk) as (s & Hrun & <- & C).
  assert (Answered e (start recipients e) []) as HA0.
  { split; simpl; auto. }
  destruct (Answered_run _ (Inv_start CreateMessage twilioConfig message recipients e)
              HA0 Hrun) as (order & Hworld & Hperm).
  rewrite (outcomes_exited _ (done_exited C)), (done_workers C) in Hperm.
  assert (length recipients = length (verdicts (workers s))) as Hlen.
  { rewrite length_verdicts, (done_workers C). reflexivity. }
  exists order. split; [|split; [exact Hworld|split; [|split; [|split]]]].
  - apply (Permutation_map fst) in Hperm.
    rewrite !map_fst_combine in Hperm; auto.
    rewrite send_all_length. reflexivity.
  - rewrite (done_sent C), !successes_combine.
    apply Permutation_map, Permutation_filter_both, Permutation_sym, Hperm.
  - rewrite (done_failed C), !failures_combine.
    apply Permutation_map, Permutation_filter_both, Permutation_sym, Hperm.
  - apply (done_total C).
  - apply (done_calls C).
Qed.

(** X10.  Every execution is equivalent to sending the messages one
    after the other in some order.  Whenever the call returns there is
    a permutation [order] of the recipient list such that calling
    [sendSMS] for the elements of [order], one by one from the initial
    environment, leaves the provider in the very state the concurrent
    execution left it in, makes the same calls up to order, and fails
    for exactly the recipients in [Failed]. *)
Theorem equivalent_to_sequential_sends (sched : list tid) (recipients : list string)
        (e e' : Env World) (result : SMSResponse) :
  sendBulkSMS sched recipients e = Some (result, e') ->
  exists order,
    Permutation order recipients /\
    world e' = world (snd (send_all order e)) /\
    Permutation (calls e') (calls (snd (send_all order e))) /\
    Permutation (Sent result) (successes order (fst (send_all order e))) /\
    Permutation (Failed result) (failures order (fst (send_all order e))).
Proof.
  intros Hbulk.
  destruct (serial_order _ _ _ Hbulk)
    as (order & Horder & Hworld & Hsent & Hfailed & _ & new & Hnew & Hperm).
  exists order. repeat split; auto.
  destruct (send_all_env order e) as [-> _]. rewrite Hnew.
  apply Permutation_app_head. rewrite Hperm.
  apply Permutation_map, Permutation_sym, Horder.
Qed.

(** X11.  A batch of one recipient is [sendSMS] with bookkeeping: under
    every schedule the recipient is in [Sent] if [sendSMS] returns nil
    for it in the initial environment and in [Failed] otherwise,
    [Total] is 1, and the provider state and the calls made are those
    of that one [sendSMS]. *)
Theorem single_recipient_is_sendSMS (sched : list tid) (t : string)
        (e e' : Env World) (result : SMSResponse) :
  sendBulkSMS sched [t] e = Some (result, e') ->
  result = (if is_nil (fst (sendSMS t message e))
            then {| Sent := [t]; Failed := []; Total := 1 |}
            else {| Sent := []; Failed := [t]; Total := 1 |}) /\
  world e' = world (snd (sendSMS t message e)) /\
  calls e' = calls (snd (sendSMS t message e)).
Proof.
  intros Hbulk.
  destruct (serial_order _ _ _ Hbulk)
    as (order & Horder & Hworld & Hsent & Hfailed & Htotal & new & Hnew & Hperm).
  apply Permutation_sym, Permutation_length_1_inv in Horder. subst order.
  apply Permutation_sym, Permutation_length_1_inv in Hperm. subst new.
  simpl in *. rewrite sendSMS_effect in *. simpl in *.
  split; [|split; [exact Hworld | exact Hnew]].
  destruct result as [sent failed total]. simpl in *. subst total.
  destruct (is_nil (sendSMS_result (fst (CreateMessage (params t) (world e))))).
  - apply Permutation_sym, Permutation_length_1_inv in Hsent.
    apply Permutation_sym, Permutation_nil in Hfailed. subst. reflexivity.
  - apply Permutation_sym, Permutation_nil in Hsent.
    apply Permutation_sym, Permutation_length_1_inv in Hfailed. subst. reflexivity.
Qed.

End DispatcherFacts.

(** ** More about the handlers *)

Lemma unselected_members_single (members : list (string * json.Value))
      (req : json.SingleRequest) :
  (forall key v, In (key, v) members ->
                 json.selects key "to" = false /\ json.selects key "message" = false) ->
  fold_left json.store_single_member members (Some req) = Some req.
Proof.
  induction members as [|[key v] members IH]; simpl; intros Hnone; [reflexivity|].
  destruct (Hnone key v (or_introl eq_refl)) as [-> ->].
  apply IH. intros key' v' Hin. apply (Hnone key' v'). right. exact Hin.
Qed.

Lemma store_strings (ts : list string) :
  json.store_elems (map json.JString ts) [] = Some ts.
Proof.
  induction ts as [|t ts IH]; simpl; [reflexivity|].
  rewrite IH. reflexivity.
Qed.

(** The body [{"to": [t1, ..., tn], "message": m}] decodes to the
    request with these recipients and this message. *)
Lemma decode_bulk_plain (ts : list string) (m : string) :
  decode_bulk
    (Some (json.JObject [("to", json.JArray (map json.JString ts));
                         ("message", json.JString m)]))
  = Some {| To := ts; Message := m |}.
Proof.
  unfold decode_bulk, json.decode_bulk_target. simpl.
  change (json.selects "to" "to") with true.
  change (json.selects "message" "to") with false.
  change (json.selects "message" "message") with true.
  cbn iota. destruct ts as [|t ts]; simpl; [reflexivity|].
  rewrite store_strings. simpl. unfold json.elements. simpl.
  rewrite length_map, firstn_all. reflexivity.
Qed.

Section HandlerFacts.

Variables World ProviderError : Type.
Context {ProviderError_error : GoError ProviderError}.
Variable CreateMessage :
  openapi.CreateMessageParams -> World -> option ProviderError * World.
Variable twilioConfig : TwilioConfig.

Local Notation sendSMS := (sendSMS CreateMessage twilioConfig).
Local Notation sendBulkSMS := (sendBulkSMS CreateMessage twilioConfig).
Local Notation sendSMSHandler := (sendSMSHandler CreateMessage twilioConfig).
Local Notation sendBulkSMSHandler := (sendBulkSMSHandler CreateMessage twilioConfig).

Lemma sendSMSHandler_decoded (r : Request) (req : json.SingleRequest) (e : Env World) :
  Method r = MethodPost ->
  json.decode_single (Body r) = Some req ->
  sendSMSHandler r e
  = let p := sendSMS_params twilioConfig (json.To req) (json.Message req) in
    let e' := {| world := snd (CreateMessage p (world e));
                 calls := calls e ++ [p];
                 logs := logs e |} in
    match fst (CreateMessage p (world e)) with
    | None =>
        (write_json (JSONMap [("message", "SMS enviado correctamente");
                              ("status", "success");
                              ("to", json.To req)]), e')
    | Some err =>
        (http_Error ("Error al enviar SMS: error al enviar SMS: " ++ Error err)%string
           StatusInternalServerError, e')
    end.
Proof.
  intros Hmethod Hbody. apply String.eqb_eq in Hmethod.
  unfold sendSMSHandler. rewrite Hmethod, Hbody. simpl.
  rewrite (sendSMS_effect CreateMessage twilioConfig). simpl.
  destruct (fst (CreateMessage
                   (sendSMS_params twilioConfig (json.To req) (json.Message req))
                   (world e))) as [err|]; reflexivity.
Qed.


(** X13.  The single endpoint answers every request with 200, 400, 405
    or 500.  With 400 or 405 it leaves the environment untouched; with
    200 or 500 it has made exactly one provider call; it never makes
    more than one. *)
Theorem single_endpoint_statuses (r : Request) (e : Env World) :
  let reply := fst (sendSMSHandler r e) in
  let e' := snd (sendSMSHandler r e) in
  (StatusCode reply = StatusOK \/ StatusCode reply = StatusBadRequest \/
   StatusCode reply = StatusMethodNotAllowed \/
   StatusCode reply = StatusInternalServerError) /\
  (StatusCode reply = StatusBadRequest \/ StatusCode reply = StatusMethodNotAllowed ->
   e' = e) /\
  (StatusCode reply = StatusOK \/ StatusCode reply = StatusInternalServerError ->
   exists p, calls e' = calls e ++ [p]) /\
  (StatusCode reply = StatusMethodNotAllowed <-> Method r <> MethodPost) /\
  length (calls e') <= length (calls e) + 1.
Proof.
  simpl. destruct (String.eqb_spec (Method r) MethodPost) as [Hpost|Hother].
  - destruct (json.decode_single (Body r)) as [req|] eqn:Hbody.
    + rewrite (sendSMSHandler_decoded _ _ Hpost Hbody). simpl.
      destruct (fst (CreateMessage
                       (sendSMS_params twilioConfig (json.To req) (json.Message req))
                       (world e))); simpl;
        (split; [auto|]); (split; [intros [H|H]; discriminate H|]);
        (split; [eauto|]); (split; [split; [discriminate | tauto]|]);
        rewrite length_app; simpl; lia.
    + unfold sendSMSHandler.
      apply String.eqb_eq in Hpost. rewrite Hpost, Hbody. simpl.
      apply String.eqb_eq in Hpost.
      split; [auto|]. split; [auto|].
      split; [intros [H|H]; discriminate H|].
      split; [split; [discriminate | tauto]|]. lia.
  - unfold sendSMSHandler.
    apply String.eqb_neq in Hother. rewrite Hother. simpl.
    apply String.eqb_neq in Hother.
    split; [auto|]. split; [auto|].
    split; [intros [H|H]; discriminate H|].
    split; [tauto|]. lia.
Qed.



End HandlerFacts.

(** ** Start-up *)

(** X16.  [main] ends in [log.Fatal] exactly when one of the three
    Twilio variables is empty or not set, or [http.ListenAndServe]
    returns for the address [":" + PORT] (8080 for an empty or missing
    PORT).  In the first case [ListenAndServe] plays no part.  Otherwise
    the process serves, with the configuration and the client
    credentials taken from these variables, none of them empty, the
    three routes registered, and that address. *)
Theorem main_needs_credentials (dotenv_loaded : bool) (Getenv : string -> string)
        (ListenAndServe : string -> option string) :
  let addr := (if (Getenv "PORT" =? "")%string then ":8080"
               else (":" ++ Getenv "PORT")%string) in
  let missing := Getenv "TWILIO_ACCOUNT_SID" = "" \/
                 Getenv "TWILIO_AUTH_TOKEN" = "" \/
                 Getenv "TWILIO_PHONE_NUMBER" = "" in
  ((exists line,
       snd (process.main dotenv_loaded Getenv ListenAndServe) = process.Fatal line) <->
   (missing \/ exists err, ListenAndServe addr = Some err)) /\
  (missing ->
   forall ListenAndServe',
     process.main dotenv_loaded Getenv ListenAndServe'
     = process.main dotenv_loaded Getenv ListenAndServe) /\
  (forall err,
      ~ missing ->
      ListenAndServe addr = Some err ->
      snd (process.main dotenv_loaded Getenv ListenAndServe) = process.Fatal err) /\
  (forall srv,
      snd (process.main dotenv_loaded Getenv ListenAndServe) = process.Serving srv ->
      process.server_config srv
      = {| AccountSID := Getenv "TWILIO_ACCOUNT_SID";
           AuthToken := Getenv "TWILIO_AUTH_TOKEN";
           FromPhone := Getenv "TWILIO_PHONE_NUMBER" |} /\
      Getenv "TWILIO_ACCOUNT_SID" <> "" /\
      Getenv "TWILIO_AUTH_TOKEN" <> "" /\
      Getenv "TWILIO_PHONE_NUMBER" <> "" /\
      process.client_username srv = Getenv "TWILIO_ACCOUNT_SID" /\
      process.client_password srv = Getenv "TWILIO_AUTH_TOKEN" /\
      map fst (process.patterns srv) = ["/send-sms"; "/send-bulk-sms"; "/health"] /\
      process.listen_addr srv = addr /\
      ListenAndServe addr = None).
Proof.
  intros addr missing.
  unfold process.main. cbn [AccountSID AuthToken FromPhone].
  assert ((":" ++ (if (Getenv "PORT" =? "")%string then "8080" else Getenv "PORT"))%string
          = addr) as Haddr
      by (unfold addr; destruct (Getenv "PORT" =? "")%string; reflexivity).
  rewrite Haddr. clearbody addr. unfold missing. clear missing.
  destruct (String.eqb_spec (Getenv "TWILIO_ACCOUNT_SID") "") as [Hsid|Hsid];
    [|destruct (String.eqb_spec (Getenv "TWILIO_AUTH_TOKEN") "") as [Htoken|Htoken];
      [|destruct (String.eqb_spec (Getenv "TWILIO_PHONE_NUMBER") "")
          as [Hphone|Hphone]]];
    cbn [orb snd].
  1-3: split; [split; eauto|]; split; [reflexivity|];
    split; [intros err Hnot; exfalso; apply Hnot; tauto | discriminate].
  destruct (ListenAndServe addr) as [err|] eqn:Hlisten; cbn [snd].
  - split; [split; eauto|]. split; [intros [H|[H|H]]; contradiction|].
    split; [intros err' _ [= <-]; reflexivity | discriminate].
  - split.
    + split.
      * intros [line Hline]. discriminate Hline.
      * intros [[H|[H|H]]|[err Herr]]; try contradiction. discriminate Herr.
    + split; [intros [H|[H|H]]; contradiction|].
      split; [intros err _ Herr; discriminate Herr|].
      intros srv [= <-]. simpl. repeat split; auto.
Qed.

(** X17.  In a process that [main] has brought up, every provider call
    carries the configured sender: the call of a [sendSMS], and every
    call made so far in every state of every execution of
    [sendBulkSMS], has [From] set to the value of TWILIO_PHONE_NUMBER,
    which is not empty. *)
Theorem served_calls_carry_sender (World ProviderError : Type)
        `{GoError ProviderError}
        (CreateMessage :
           openapi.CreateMessageParams -> World -> option ProviderError * World)
        (dotenv_loaded : bool) (Getenv : string -> string)
        (ListenAndServe : string -> option string) (srv : process.Server) :
  snd (process.main dotenv_loaded Getenv ListenAndServe) = process.Serving srv ->
  Getenv "TWILIO_PHONE_NUMBER" <> "" /\
  (forall t m e,
      exists p,
        calls (snd (sendSMS CreateMessage (process.server_config srv) t m e))
        = calls e ++ [p] /\
        openapi.From p = Some (Getenv "TWILIO_PHONE_NUMBER")) /\
  (forall m recipients e sched s,
      run CreateMessage (process.server_config srv) m sched (start recipients e)
      = Some s ->
      exists new,
        calls (env s) = calls e ++ new /\
        forall p, In p new -> openapi.From p = Some (Getenv "TWILIO_PHONE_NUMBER")).
Proof.
  intros Hmain.
  assert (FromPhone (process.server_config srv) = Getenv "TWILIO_PHONE_NUMBER" /\
          Getenv "TWILIO_PHONE_NUMBER" <> "") as [Hfrom Hset].
  { revert Hmain. unfold process.main. simpl.
    destruct (String.eqb_spec (Getenv "TWILIO_PHONE_NUMBER") "") as [Hphone|Hphone].
    - rewrite !orb_true_r. discriminate.
    - destruct (_ || _ || false); [discriminate|].
      destruct (ListenAndServe _); [discriminate|].
      intros [= <-]. auto. }
  split; [exact Hset|]. split.
  - intros t m e. rewrite sendSMS_effect. simpl. eexists. split; [reflexivity|].
    simpl. rewrite Hfrom. reflexivity.
  - intros m recipients e sched s Hrun.
    pose proof (Inv_reachable _ _ _ _ _ _ Hrun) as HI.
    destruct (inv_calls HI) as (new & Hnew & Hperm).
    exists new. split; [exact Hnew|].
    intros p Hp. apply (Permutation_in _ Hperm) in Hp.
    apply in_map_iff in Hp. destruct Hp as (t & <- & _).
    simpl. rewrite Hfrom. reflexivity.
Qed.

(** ** Instances of the further properties *)

Lemma mutex_held_by_at_most_one_witness :
  Demo.run Trial.first_worker_records (start Demo.recipients3 Demo.env0)
  = Some Trial.recording /\
  tally holds_mu (workers Trial.recording) <= 1.
Proof.
  assert (Demo.run Trial.first_worker_records (start Demo.recipients3 Demo.env0)
          = Some Trial.recording) as Hrun by (vm_compute; reflexivity).
  split; [exact Hrun|].
  apply (mutex_held_by_at_most_one Demo.CreateMessage Demo.config "hola"
           Demo.recipients3 Demo.env0 Trial.first_worker_records Hrun).
Defined.

Lemma synchronisation_never_fails_witness :
  Demo.run Trial.first_worker_records (start Demo.recipients3 Demo.env0)
  = Some Trial.recording /\
  nth_error (workers Trial.recording) 0 = Some {| to := "+1"; pc := AtUnlock None |} /\
  mu Trial.recording = true.
Proof.
  assert (Demo.run Trial.first_worker_records (start Demo.recipients3 Demo.env0)
          = Some Trial.recording) as Hrun by (vm_compute; reflexivity).
  assert (nth_error (workers Trial.recording) 0
          = Some {| to := "+1"; pc := AtUnlock None |}) as Hworker by reflexivity.
  split; [exact Hrun|]. split; [exact Hworker|].
  destruct (synchronisation_never_fails Demo.CreateMessage Demo.config "hola"
              Demo.recipients3 Demo.env0 Trial.first_worker_records 0 Hrun Hworker)
    as [Hunlock _].
  exact (Hunlock None eq_refl).
Defined.

Lemma execution_length_witness :
  Demo.run (Demo.one_by_one 3) (start Demo.recipients3 Demo.env0)
  = Some Demo.finished /\
  length (Demo.one_by_one 3) = 10 * length Demo.recipients3 + 2.
Proof.
  assert (Demo.run (Demo.one_by_one 3) (start Demo.recipients3 Demo.env0)
          = Some Demo.finished) as Hrun by (vm_compute; reflexivity).
  split; [exact Hrun|].
  destruct (execution_length Demo.CreateMessage Demo.config "hola"
              Demo.recipients3 Demo.env0 (Demo.one_by_one 3) Hrun) as [_ Hexact].
  exact (Hexact (response Demo.finished) eq_refl).
Defined.

Lemma nothing_runs_after_return_witness :
  Demo.run (Demo.one_by_one 3) (start Demo.recipients3 Demo.env0)
  = Some Demo.finished /\
  main Demo.finished = Returned (response Demo.finished) /\
  Demo.step (Worker 1) Demo.finished = None.
Proof.
  assert (Demo.run (Demo.one_by_one 3) (start Demo.recipients3 Demo.env0)
          = Some Demo.finished) as Hrun by (vm_compute; reflexivity).
  split; [exact Hrun|]. split; [reflexivity|].
  destruct (nothing_runs_after_return Demo.CreateMessage Demo.config "hola"
              Demo.recipients3 Demo.env0 (Demo.one_by_one 3) Hrun
              (result := response Demo.finished) eq_refl) as [Hquiet _].
  exact (Hquiet (Worker 1)).
Defined.

Lemma recorded_never_exceeds_total_witness :
  Demo.run Trial.first_worker_records (start Demo.recipients3 Demo.env0)
  = Some Trial.recording /\
  length (Sent (response Trial.recording)) + length (Failed (response Trial.recording))
  <= Total (response Trial.recording).
Proof.
  assert (Demo.run Trial.first_worker_records (start Demo.recipients3 Demo.env0)
          = Some Trial.recording) as Hrun by (vm_compute; reflexivity).
  split; [exact Hrun|].
  apply (recorded_never_exceeds_total Demo.CreateMessage Demo.config "hola"
           Demo.recipients3 Demo.env0 Trial.first_worker_records Hrun).
Defined.

Lemma calls_are_for_recipients_witness :
  Demo.run Trial.first_worker_records (start Demo.recipients3 Demo.env0)
  = Some Trial.recording /\
  exists new called waiting,
    calls (env Trial.recording) = calls Demo.env0 ++ new /\
    Permutation Demo.recipients3 (called ++ waiting) /\
    Permutation new (map (fun t => sendSMS_params Demo.config t "hola") called).
Proof.
  assert (Demo.run Trial.first_worker_records (start Demo.recipients3 Demo.env0)
          = Some Trial.recording) as Hrun by (vm_compute; reflexivity).
  split; [exact Hrun|].
  destruct (calls_are_for_recipients Demo.CreateMessage Demo.config "hola"
              Demo.recipients3 Demo.env0 Trial.first_worker_records Hrun)
    as (new & called & waiting & Hnew & Hsplit & Hcalled & _).
  exists new, called, waiting. repeat split; assumption.
Defined.

Lemma demo_verdict (t : string) (w : nat) :
  fst (Demo.CreateMessage (sendSMS_params Demo.config t "hola") w) = None
  <-> Trial.accepts t = true.
Proof.
  unfold Demo.CreateMessage, Trial.accepts. simpl.
  destruct (t =? "+100")%string; simpl; split; congruence.
Defined.

Lemma result_independent_of_schedule_witness :
  Demo.sendBulkSMS (Demo.one_by_one 3) Demo.recipients3 Demo.env0
  = Some (response Demo.finished, env Demo.finished) /\
  Demo.sendBulkSMS Trial.last_first Demo.recipients3 Demo.env0
  = Some (response Trial.finished_last_first, env Trial.finished_last_first) /\
  Permutation (Sent (response Demo.finished))
              (Sent (response Trial.finished_last_first)).
Proof.
  assert (Demo.sendBulkSMS (Demo.one_by_one 3) Demo.recipients3 Demo.env0
          = Some (response Demo.finished, env Demo.finished)) as Hfirst
      by (vm_compute; reflexivity).
  assert (Demo.sendBulkSMS Trial.last_first Demo.recipients3 Demo.env0
          = Some (response Trial.finished_last_first, env Trial.finished_last_first))
    as Hsecond by (vm_compute; reflexivity).
  split; [exact Hfirst|]. split; [exact Hsecond|].
  destruct (result_independent_of_schedule Demo.CreateMessage Demo.config "hola"
              Trial.accepts demo_verdict Demo.recipients3 Demo.env0
              (Demo.one_by_one 3) Trial.last_first Hfirst Hsecond)
    as (_ & _ & Hsame & _).
  exact Hsame.
Defined.

Lemma log_matches_response_witness :
  Demo.run Trial.first_worker_records (start Demo.recipients3 Demo.env0)
  = Some Trial.recording /\
  exists new,
    logs (env Trial.recording) = logs Demo.env0 ++ new /\
    logged_sent new = Sent (response Trial.recording).
Proof.
  assert (Demo.run Trial.first_worker_records (start Demo.recipients3 Demo.env0)
          = Some Trial.recording) as Hrun by (vm_compute; reflexivity).
  split; [exact Hrun|].
  destruct (log_matches_response Demo.CreateMessage Demo.config "hola"
              Demo.recipients3 Demo.env0 Trial.first_worker_records Hrun)
    as (new & Hnew & Hsent & _).
  exists new. split; assumption.
Defined.

Lemma equivalent_to_sequential_sends_witness :
  Demo.sendBulkSMS Trial.last_first Demo.recipients3 Demo.env0
  = Some (response Trial.finished_last_first, env Trial.finished_last_first) /\
  exists order,
    Permutation order Demo.recipients3 /\
    world (env Trial.finished_last_first)
    = world (snd (send_all Demo.CreateMessage Demo.config "hola" order Demo.env0)).
Proof.
  assert (Demo.sendBulkSMS Trial.last_first Demo.recipients3 Demo.env0
          = Some (response Trial.finished_last_first, env Trial.finished_last_first))
    as Hbulk by (vm_compute; reflexivity).
  split; [exact Hbulk|].
  destruct (equivalent_to_sequential_sends Demo.CreateMessage Demo.config "hola"
              Trial.last_first Demo.recipients3 Demo.env0 Hbulk)
    as (order & Horder & Hworld & _).
  exists order. split; assumption.
Defined.

Lemma single_recipient_is_sendSMS_witness :
  Demo.sendBulkSMS (Demo.one_by_one 1) ["+100"] Demo.env0
  = Some ({| Sent := []; Failed := ["+100"]; Total := 1 |},
          {| world := 0;
             calls := [sendSMS_params Demo.config "+100" "hola"];
             logs := [LogSendError "+100" "error al enviar SMS: invalid phone number"] |}) /\
  calls {| world := 0;
           calls := [sendSMS_params Demo.config "+100" "hola"];
           logs := [LogSendError "+100" "error al enviar SMS: invalid phone number"] |}
  = calls (snd (Demo.sendSMS "+100" "hola" Demo.env0)).
Proof.
  assert (Demo.sendBulkSMS (Demo.one_by_one 1) ["+100"] Demo.env0
          = Some ({| Sent := []; Failed := ["+100"]; Total := 1 |},
                  {| world := 0;
                     calls := [sendSMS_params Demo.config "+100" "hola"];
                     logs := [LogSendError "+100"
                                "error al enviar SMS: invalid phone number"] |}))
    as Hbulk by (vm_compute; reflexivity).
  split; [exact Hbulk|].
  apply (single_recipient_is_sendSMS Demo.CreateMessage Demo.config "hola"
           (Demo.one_by_one 1) "+100" Demo.env0 Hbulk).
Defined.


Lemma single_endpoint_statuses_witness :
  StatusCode (fst (Demo.sendSMSHandler {| Method := "PUT"; Body := None |} Demo.env0))
  = StatusMethodNotAllowed /\
  snd (Demo.sendSMSHandler {| Method := "PUT"; Body := None |} Demo.env0) = Demo.env0.
Proof.
  assert (StatusCode
            (fst (Demo.sendSMSHandler {| Method := "PUT"; Body := None |} Demo.env0))
          = StatusMethodNotAllowed) as Hstatus by reflexivity.
  split; [exact Hstatus|].
  destruct (single_endpoint_statuses Demo.CreateMessage Demo.config
              {| Method := "PUT"; Body := None |} Demo.env0) as (_ & Hsame & _).
  exact (Hsame (or_intror Hstatus)).
Defined.

Lemma unknown_member_selects_nothing (key : string) (v : json.Value) :
  In (key, v) Trial.unknown_member ->
  json.selects key "to" = false /\ json.selects key "message" = false.
Proof.
  intros [[= <- <-]|[]]. vm_compute. split; reflexivity.
Defined.



Lemma main_needs_credentials_witness :
  snd (process.main true Trial.Getenv Trial.ListenAndServe)
  = process.Serving Trial.server /\
  Trial.ListenAndServe ":8080" = None /\
  (exists line,
      snd (process.main true Trial.Getenv_bad_port Trial.ListenAndServe)
      = process.Fatal line) /\
  (exists line,
      snd (process.main false (fun _ => "") Trial.ListenAndServe) = process.Fatal line).
Proof.
  assert (snd (process.main true Trial.Getenv Trial.ListenAndServe)
          = process.Serving Trial.server)
    as Hmain by (vm_compute; reflexivity).
  split; [exact Hmain|]. split; [|split].
  - destruct (main_needs_credentials true Trial.Getenv Trial.ListenAndServe)
      as (_ & _ & _ & Hserving).
    destruct (Hserving Trial.server Hmain) as (_ & _ & _ & _ & _ & _ & _ & _ & Hlisten).
    exact Hlisten.
  - destruct (main_needs_credentials true Trial.Getenv_bad_port Trial.ListenAndServe)
      as ([_ Hfatal] & _).
    apply Hfatal. right.
    exists "listen tcp: address 99999: invalid port". reflexivity.
  - destruct (main_needs_credentials false (fun _ => "") Trial.ListenAndServe)
      as ([_ Hfatal] & _).
    apply Hfatal. left. left. reflexivity.
Defined.

Lemma served_calls_carry_sender_witness :
  snd (process.main true Trial.Getenv Trial.ListenAndServe)
  = process.Serving Trial.server /\
  Trial.Getenv "TWILIO_PHONE_NUMBER" <> "".
Proof.
  assert (snd (process.main true Trial.Getenv Trial.ListenAndServe)
          = process.Serving Trial.server)
    as Hmain by (vm_compute; reflexivity).
  split; [exact Hmain|].
  apply (served_calls_carry_sender Demo.CreateMessage true Trial.Getenv
           Trial.ListenAndServe Hmain).
Defined.

(** ** No deadlock *)

(** X18.  The call never gets stuck, whatever the number of recipients:
    in every state of every execution in which the caller does not yet
    have its result, some goroutine can take its next action; a state in
    which nothing can move is a state in which the caller has
    returned. *)
Theorem no_deadlock (World ProviderError : Type) `{GoError ProviderError}
        (CreateMessage :
           openapi.CreateMessageParams -> World -> option ProviderError * World)
        (twilioConfig : TwilioConfig) (message : string)
        (recipients : list string) (e : Env World)
        (sched : list tid) (s : State World) :
  run CreateMessage twilioConfig message sched (start recipients e) = Some s ->
  ((forall result, main s <> Returned result) ->
   exists t s', step CreateMessage twilioConfig message t s = Some s') /\
  ((forall t, step CreateMessage twilioConfig message t s = None) ->
   exists result, main s = Returned result).
Proof.
  intros Hrun. pose proof (Inv_reachable _ _ _ _ _ _ Hrun) as HI. split.
  - intros Hnot. exact (progress HI Hnot).
  - intros Hstuck. destruct (main s) as [rest|recipient rest| |result] eqn:Hmain;
      [| | |eauto].
    all: destruct (progress HI) as (t & s' & Hstep);
      [intros result; rewrite Hmain; discriminate|];
      rewrite (Hstuck t) in Hstep; discriminate.
Qed.

Lemma no_deadlock_witness :
  Demo.run Trial.first_worker_records (start Demo.recipients3 Demo.env0)
  = Some Trial.recording /\
  (forall result, main Trial.recording <> Returned result) /\
  exists t s', Demo.step t Trial.recording = Some s'.
Proof.
  assert (Demo.run Trial.first_worker_records (start Demo.recipients3 Demo.env0)
          = Some Trial.recording) as Hrun by (vm_compute; reflexivity).
  assert (forall result, main Trial.recording <> Returned result) as Hnot
      by (intros result; discriminate).
  split; [exact Hrun|]. split; [exact Hnot|].
  destruct (no_deadlock Demo.CreateMessage Demo.config "hola"
              Demo.recipients3 Demo.env0 Trial.first_worker_records Hrun)
    as [Hmoves _].
  exact (Hmoves Hnot).
Defined.
